(** * alexandria.events: the event bus of the alexandria DHT node

    A shallow embedding of [src/alexandria/events.py] and the properties of
    its three classes: [ReAwaitable], [Event] and [Events].

    The module runs on trio, a single-threaded cooperative scheduler: a task
    runs without interruption from one checkpoint to the next.  Each class is
    therefore modelled as a transition system whose atomic steps are the
    stretches of code between two checkpoints. *)

From stdpp Require Import gmap strings list.

(** ** Exceptions that can travel through the module *)

Inductive exn :=
| Cancelled            (* trio.Cancelled *)
| BrokenResourceError  (* trio.BrokenResourceError *)
| ClosedResourceError  (* trio.ClosedResourceError *)
| KeyError             (* set.remove of a missing element *)
| RuntimeError         (* raised by the interpreter itself *)
| Failure (code : nat) (* any exception raised by user code *).

Global Instance exn_eq_dec : EqDecision exn.
Proof. solve_decision. Defined.

(** ** ReAwaitable (events.py, lines 24-37) *)

Module ReAwaitable.
Section WithResult.
Context {A : Type}.

(** A Python value of the result type: [None] or a proper value. *)
Inductive pyvalue := PyNone | PyVal (v : A).

(** How one run of a computation ends. *)
Inductive outcome := Return (v : A) | Raise (e : exn).

(** The two sorts of objects whose [__await__] the wrapper can call: a
    coroutine object (the result of calling an [async def]) and an object whose
    [__await__] is a generator function. *)
Inductive awaitable_kind := CoroutineObject | GeneratorAwait.

(** The wrapped awaitable.  Calling its [__await__()] can itself raise:
    [aw_call k] is what the call does when it has been called [k] times
    before, raise or return an iterator.  The body behind the iterator
    suspends [aw_suspensions] times and then ends with [aw_outcome]. *)
Record awaitable := {
  aw_kind : awaitable_kind;
  aw_suspensions : nat;
  aw_outcome : outcome;
  aw_call : nat → option exn
}.

(** An awaitable whose [__await__()] always returns an iterator. *)
Definition returns_iterator : nat → option exn := λ _, None.

(** The iterator that [awaitable.__await__()] returns.  It is a mutable heap
    object: every holder of a reference sees the same state. *)
Record iterator := {
  it_kind : awaitable_kind;
  it_left : nat;
  it_outcome : outcome;
  it_finished : bool
}.

(** Result of one [next(it)]. *)
Inductive next_result :=
| Yielded                 (* the body suspended: the awaiting task suspends *)
| Stopped (v : pyvalue)   (* StopIteration(v): the value of the await *)
| Threw (e : exn).

(** [next] on the iterator.  Once the body has ended the frame is gone:
    a coroutine then raises RuntimeError ("cannot reuse already awaited
    coroutine") and a generator raises a bare StopIteration, whose value
    is None. *)
Definition next (it : iterator) : next_result * iterator :=
  if it_finished it then
    match it_kind it with
    | CoroutineObject => (Threw RuntimeError, it)
    | GeneratorAwait => (Stopped PyNone, it)
    end
  else
    match it_left it with
    | S n =>
        (Yielded, {| it_kind := it_kind it; it_left := n;
                     it_outcome := it_outcome it; it_finished := false |})
    | O =>
        (match it_outcome it with
         | Return v => Stopped (PyVal v)
         | Raise e => Threw e
         end,
         {| it_kind := it_kind it; it_left := 0;
            it_outcome := it_outcome it; it_finished := true |})
    end.

(** The heap of iterator objects, and the number of times the wrapped
    awaitable's own [__await__] has been called. *)
Record heap := {
  iters : gmap nat iterator;
  invocations : nat
}.

Definition empty_heap : heap := {| iters := ∅; invocations := 0 |}.

(** What a call of [__await__()] gives: a reference to an iterator, or an
    exception. *)
Inductive call_result := Iterator (i : nat) | CallRaises (e : exn).

(** [self._awaitable.__await__()]: the call is counted; it raises, or it
    allocates the iterator and returns a reference to it. *)
Definition awaitable_await (a : awaitable) (h : heap) : call_result * heap :=
  match aw_call a (invocations h) with
  | Some e =>
      (CallRaises e,
       {| iters := iters h; invocations := S (invocations h) |})
  | None =>
      let i := fresh (dom (iters h)) in
      (Iterator i,
       {| iters := <[i := {| it_kind := aw_kind a;
                             it_left := aw_suspensions a;
                             it_outcome := aw_outcome a;
                             it_finished := false |}]> (iters h);
          invocations := S (invocations h) |})
  end.

(** The instance: [_awaitable] is set by [__init__]; the attribute [_result]
    is absent ([None]) until [__await__] sets it to a reference. *)
Record ReAwaitable := {
  _awaitable : awaitable;
  _result : option nat
}.

(** [__init__] (lines 27-28) *)
Definition __init__ (a : awaitable) : ReAwaitable :=
  {| _awaitable := a; _result := None |}.

(** [is_done] (lines 30-32): [hasattr(self, '_result')] *)
Definition is_done (r : ReAwaitable) : bool :=
  match _result r with Some _ => true | None => false end.

(** [__await__] (lines 34-37).  When [_result] is absent (line 35) the
    wrapped awaitable's [__await__()] is called (line 36): if the call raises,
    the exception leaves [__await__] and nothing has been assigned; if it
    returns, the reference is assigned to [_result].  Line 37 returns what
    the attribute holds. *)
Definition __await__ (r : ReAwaitable) (h : heap)
  : call_result * ReAwaitable * heap :=
  match _result r with
  | None =>
      match awaitable_await (_awaitable r) h with
      | (CallRaises e, h1) => (CallRaises e, r, h1)
      | (Iterator i, h1) =>
          (Iterator i, {| _awaitable := _awaitable r; _result := Some i |}, h1)
      end
  | Some i => (Iterator i, r, h)
  end.

(** One resumption of a task that sits in [await r] on iterator [i]
    ([yield from] calls [next] on it). *)
Definition resume (i : nat) (h : heap) : option (next_result * heap) :=
  match iters h !! i with
  | Some it =>
      let '(res, it') := next it in
      Some (res, {| iters := <[i := it']> (iters h);
                    invocations := invocations h |})
  | None => None
  end.

(** How an [await] expression ends, and how many times the task suspended
    on the way. *)
Inductive await_result := Value (v : pyvalue) | Exception (e : exn).

(** A task that is alone in driving iterator [i] until the await ends. *)
Fixpoint drive (fuel : nat) (i : nat) (h : heap) (susp : nat)
  : option (await_result * nat * heap) :=
  match fuel with
  | O => None
  | S fuel' =>
      match resume i h with
      | None => None
      | Some (Yielded, h') => drive fuel' i h' (S susp)
      | Some (Stopped v, h') => Some (Value v, susp, h')
      | Some (Threw e, h') => Some (Exception e, susp, h')
      end
  end.

(** [await r], run to its end by a single task. *)
Definition await (fuel : nat) (r : ReAwaitable) (h : heap)
  : option (await_result * nat * ReAwaitable * heap) :=
  match __await__ r h with
  | (Iterator i, r', h') =>
      match drive fuel i h' 0 with
      | Some (res, susp, h'') => Some (res, susp, r', h'')
      | None => None
      end
  | (CallRaises e, r', h') => Some (Exception e, 0, r', h')
  end.

(** The two things tasks do with the wrapper: one of them starts an
    [await] on it (calling [__await__]), or one that has started an await is
    resumed (calling [next] on the iterator it was given). *)
Inductive op := OpAwait | OpResume.

Definition exec (s : ReAwaitable * heap) (o : op) : ReAwaitable * heap :=
  let '(r, h) := s in
  match o with
  | OpAwait => let '(_, r', h') := __await__ r h in (r', h')
  | OpResume =>
      match _result r with
      | Some i =>
          match resume i h with
          | Some (_, h') => (r, h')
          | None => (r, h)
          end
      | None => (r, h)
      end
  end.


(** What an await evaluates to when the computation ends with [o]. *)
Definition result_of (o : outcome) : await_result :=
  match o with
  | Return v => Value (PyVal v)
  | Raise e => Exception e
  end.

(** The iterator once its body has ended. *)
Definition finish (it : iterator) : iterator :=
  {| it_kind := it_kind it; it_left := 0;
     it_outcome := it_outcome it; it_finished := true |}.

(** The heap with iterator [i] replaced. *)
Definition put (i : nat) (it : iterator) (h : heap) : heap :=
  {| iters := <[i := it]> (iters h); invocations := invocations h |}.

(** What an await on an exhausted iterator evaluates to (see [next]). *)
Definition exhausted_answer (k : awaitable_kind) : await_result :=
  match k with
  | CoroutineObject => Exception RuntimeError
  | GeneratorAwait => Value PyNone
  end.

Global Instance op_eq_dec : EqDecision op.
Proof. solve_decision. Defined.

(** The number of awaits started in a sequence of operations. *)
Fixpoint awaits (ops : list op) : nat :=
  match ops with
  | [] => 0
  | OpAwait :: ops' => S (awaits ops')
  | OpResume :: ops' => awaits ops'
  end.

End WithResult.
Arguments pyvalue : clear implicits.
Arguments outcome : clear implicits.
Arguments awaitable : clear implicits.
Arguments iterator : clear implicits.
Arguments heap : clear implicits.
Arguments ReAwaitable : clear implicits.
Arguments await_result : clear implicits.
Arguments next_result : clear implicits.
End ReAwaitable.

(** ** trio's memory channel, as far as [Event] uses it

    [trio.open_memory_channel(n)] returns the two handles of one bounded FIFO.
    [Event] keeps the send handle and never closes it; the subscriber holds
    the receive handle.  The record is the state the two handles share. *)

Module Channel.
Section WithPayload.
Context {T : Type}.

Record state := {
  data : list T;           (* buffered payloads, oldest first *)
  max_buffer_size : nat;
  closed : bool            (* the receive handle has been closed *)
}.

Definition open_memory_channel (n : nat) : state :=
  {| data := []; max_buffer_size := n; closed := false |}.

Inductive send_result :=
| Sent (s : state)
| WouldBlock
| SendRaises (e : exn).

(** [send_nowait]: a send with no receiver left raises BrokenResourceError;
    a full buffer makes [send] wait. *)
Definition send_nowait (v : T) (s : state) : send_result :=
  if closed s then SendRaises BrokenResourceError
  else if decide (length (data s) < max_buffer_size s) then
    Sent {| data := data s ++ [v];
            max_buffer_size := max_buffer_size s;
            closed := closed s |}
  else WouldBlock.

Inductive receive_result :=
| Received (v : T) (s : state)
| WouldBlockR
| ReceiveRaises (e : exn).

Definition receive_nowait (s : state) : receive_result :=
  if closed s then ReceiveRaises ClosedResourceError
  else match data s with
       | v :: rest =>
           Received v {| data := rest;
                         max_buffer_size := max_buffer_size s;
                         closed := closed s |}
       | [] => WouldBlockR
       end.

(** Closing the only receive handle drops what is still buffered. *)
Definition close (s : state) : state :=
  {| data := []; max_buffer_size := max_buffer_size s; closed := true |}.

(** The state after a send that found the channel open and not full. *)
Definition push (v : T) (s : state) : state :=
  {| data := data s ++ [v];
     max_buffer_size := max_buffer_size s;
     closed := closed s |}.

(** Open and not full: [send] does not wait. *)
Definition has_room (s : state) : Prop :=
  closed s = false ∧ length (data s) < max_buffer_size s.

End WithPayload.
Arguments state : clear implicits.
Arguments send_result : clear implicits.
Arguments receive_result : clear implicits.
End Channel.

(** ** Event (events.py, lines 40-68) *)

Module EventModel.
Section WithPayload.
Context {T : Type}.

(** Iteration order of a Python set: some enumeration of its elements.  The
    development is parametric in it. *)
Variable set_iter : gset nat → list nat.

(** The instance (lines 45-48).  [_lock] is the trio.Lock: its owner, if any.
    [_channels] holds references to send handles. *)
Record Event := {
  name : string;
  _lock : option nat;
  _channels : gset nat
}.

Definition Event_init (n : string) : Event :=
  {| name := n; _lock := None; _channels := ∅ |}.

(** Where a task stands in [trigger] (T...) or in [subscribe] (S...). *)
Inductive pc :=
| TAcquire (p : T)                      (* line 52, entering [async with self._lock] *)
| TIterate (p : T) (it : list nat)      (* lines 53-54, lock held; [it]: what the loop has left *)
| SOpen                                 (* line 58 *)
| SAcquire (c : nat)                    (* line 60 *)
| SAdd (c : nat)                        (* line 61, lock held *)
| SYielded (c : nat)                    (* line 65, the caller's block runs *)
| SClosing (c : nat) (pend : option exn) (* line 64, leaving [async with receive_channel] *)
| SFinally (c : nat) (pend : option exn) (* line 67, entering [async with self._lock] *)
| SRemove (c : nat) (pend : option exn)  (* line 68, lock held *)
| Returned
| Raised (e : exn).

(** A task: its position and whether the cancel scope around the call has
    been cancelled.  Cancellation is level-triggered: from then on every
    checkpoint of the task raises [Cancelled]. *)
Record task := {
  cancelled : bool;
  at_pc : pc
}.

Record config := {
  event : Event;
  chans : gmap nat (Channel.state T);
  tasks : gmap nat task
}.

Definition init (n : string) : config :=
  {| event := Event_init n; chans := ∅; tasks := ∅ |}.

(** What the scheduler can do next. *)
Inductive action :=
| CallTrigger (tid : nat) (p : T)     (* a new task calls [trigger(p)] *)
| CallSubscribe (tid : nat)           (* a new task enters [subscribe()] *)
| Run (tid : nat)                     (* the task runs to its next checkpoint *)
| Receive (tid : nat)                 (* the caller's block calls [receive()] *)
| Exit (tid : nat) (e : option exn)   (* the caller's block ends, normally or raising [e] *)
| Cancel (tid : nat).                 (* the task's cancel scope is cancelled *)

(** What an observer sees of a step. *)
Inductive obs :=
| OAcquire (tid : nat) (p : T)        (* a trigger call got the lock *)
| OSend (tid c : nat) (p : T)         (* ... put [p] into channel [c] *)
| OReturn (tid : nat)                 (* ... returned *)
| ORaise (tid : nat) (e : exn)        (* a call raised [e] to its caller *)
| ORegister (tid c : nat)             (* [c] was added to [_channels] *)
| OReceive (tid c : nat) (p : T)      (* [receive()] returned [p] *)
| OClose (tid c : nat)                (* the receive handle of [c] was closed *)
| OUnregister (tid c : nat).          (* [c] was removed from [_channels] *)

Definition set_lock (o : option nat) (σ : config) : config :=
  {| event := {| name := name (event σ); _lock := o;
                 _channels := _channels (event σ) |};
     chans := chans σ; tasks := tasks σ |}.

Definition set_channels (s : gset nat) (σ : config) : config :=
  {| event := {| name := name (event σ); _lock := _lock (event σ);
                 _channels := s |};
     chans := chans σ; tasks := tasks σ |}.

Definition set_chan (c : nat) (s : Channel.state T) (σ : config) : config :=
  {| event := event σ; chans := <[c := s]> (chans σ); tasks := tasks σ |}.

Definition set_task (tid : nat) (t : task) (σ : config) : config :=
  {| event := event σ; chans := chans σ; tasks := <[tid := t]> (tasks σ) |}.

Definition goto (tid : nat) (t : task) (k : pc) (σ : config) : config :=
  set_task tid {| cancelled := cancelled t; at_pc := k |} σ.

(** [trigger] (lines 50-54), one step of task [tid] at [TAcquire] or
    [TIterate].  [None]: the task is parked. *)
Definition trigger (tid : nat) (t : task) (σ : config)
  : option (config * list obs) :=
  match at_pc t with
  | TAcquire p =>
      if cancelled t then
        Some (goto tid t (Raised Cancelled) σ, [ORaise tid Cancelled])
      else match _lock (event σ) with
           | None =>
               Some (goto tid t (TIterate p (set_iter (_channels (event σ))))
                       (set_lock (Some tid) σ),
                     [OAcquire tid p])
           | Some _ => None
           end
  | TIterate p [] =>
      Some (goto tid t Returned (set_lock None σ), [OReturn tid])
  | TIterate p (c :: rest) =>
      if cancelled t then
        Some (goto tid t (Raised Cancelled) (set_lock None σ),
              [ORaise tid Cancelled])
      else match chans σ !! c with
           | None => None
           | Some ch =>
               match Channel.send_nowait p ch with
               | Channel.Sent ch' =>
                   Some (goto tid t (TIterate p rest) (set_chan c ch' σ),
                         [OSend tid c p])
               | Channel.WouldBlock => None
               | Channel.SendRaises e =>
                   Some (goto tid t (Raised e) (set_lock None σ),
                         [ORaise tid e])
               end
           end
  | _ => None
  end.

(** The capacity of every subscription queue (line 58). *)
Definition capacity : nat := 256.

(** [subscribe] (lines 56-68), one step of task [tid] outside the caller's
    block. *)
Definition subscribe (tid : nat) (t : task) (σ : config)
  : option (config * list obs) :=
  match at_pc t with
  | SOpen =>
      let c := fresh (dom (chans σ)) in
      Some (goto tid t (SAcquire c)
              (set_chan c (Channel.open_memory_channel capacity) σ), [])
  | SAcquire c =>
      if cancelled t then
        Some (goto tid t (Raised Cancelled) σ, [ORaise tid Cancelled])
      else match _lock (event σ) with
           | None => Some (goto tid t (SAdd c) (set_lock (Some tid) σ), [])
           | Some _ => None
           end
  | SAdd c =>
      Some (goto tid t (SYielded c)
              (set_lock None (set_channels ({[c]} ∪ _channels (event σ)) σ)),
            [ORegister tid c])
  | SClosing c pend =>
      match chans σ !! c with
      | None => None
      | Some ch =>
          Some (goto tid t
                  (SFinally c (if cancelled t then Some Cancelled else pend))
                  (set_chan c (Channel.close ch) σ),
                [OClose tid c])
      end
  | SFinally c pend =>
      if cancelled t then
        Some (goto tid t (Raised Cancelled) σ, [ORaise tid Cancelled])
      else match _lock (event σ) with
           | None =>
               Some (goto tid t (SRemove c pend) (set_lock (Some tid) σ), [])
           | Some _ => None
           end
  | SRemove c pend =>
      if decide (c ∈ _channels (event σ)) then
        Some (goto tid t (match pend with
                          | None => Returned
                          | Some e => Raised e
                          end)
                (set_lock None (set_channels (_channels (event σ) ∖ {[c]}) σ)),
              OUnregister tid c ::
              match pend with None => [] | Some e => [ORaise tid e] end)
      else
        Some (goto tid t (Raised KeyError) (set_lock None σ),
              [ORaise tid KeyError])
  | _ => None
  end.

(** [receive()] on the handle that [subscribe] yielded, called by the
    caller's block. *)
Definition receive (tid : nat) (t : task) (σ : config)
  : option (config * list obs) :=
  match at_pc t with
  | SYielded c =>
      if cancelled t then None
      else match chans σ !! c with
           | None => None
           | Some ch =>
               match Channel.receive_nowait ch with
               | Channel.Received v ch' =>
                   Some (set_chan c ch' σ, [OReceive tid c v])
               | _ => None
               end
           end
  | _ => None
  end.

Definition step (a : action) (σ : config) : option (config * list obs) :=
  match a with
  | CallTrigger tid p =>
      match tasks σ !! tid with
      | None =>
          Some (set_task tid {| cancelled := false; at_pc := TAcquire p |} σ, [])
      | Some _ => None
      end
  | CallSubscribe tid =>
      match tasks σ !! tid with
      | None =>
          Some (set_task tid {| cancelled := false; at_pc := SOpen |} σ, [])
      | Some _ => None
      end
  | Run tid =>
      match tasks σ !! tid with
      | Some t =>
          match at_pc t with
          | TAcquire _ | TIterate _ _ => trigger tid t σ
          | _ => subscribe tid t σ
          end
      | None => None
      end
  | Receive tid =>
      match tasks σ !! tid with
      | Some t => receive tid t σ
      | None => None
      end
  | Exit tid e =>
      match tasks σ !! tid with
      | Some t =>
          match at_pc t with
          | SYielded c => Some (goto tid t (SClosing c e) σ, [])
          | _ => None
          end
      | None => None
      end
  | Cancel tid =>
      match tasks σ !! tid with
      | Some t =>
          Some (set_task tid {| cancelled := true; at_pc := at_pc t |} σ, [])
      | None => None
      end
  end.

(** A schedule, run from [σ]; the observations are listed oldest first. *)
Fixpoint run (acts : list action) (σ : config) : option (config * list obs) :=
  match acts with
  | [] => Some (σ, [])
  | a :: acts' =>
      match step a σ with
      | Some (σ', o) =>
          match run acts' σ' with
          | Some (σ'', os) => Some (σ'', o ++ os)
          | None => None
          end
      | None => None
      end
  end.

(** *** Vocabulary for the properties *)

(** Payloads put into channel [c], oldest first. *)
Definition sent (c : nat) (os : list obs) : list T :=
  omap (λ o, match o with
             | OSend _ c' p => if decide (c' = c) then Some p else None
             | _ => None
             end) os.

(** Payloads that [receive()] returned from channel [c], oldest first. *)
Definition received (c : nat) (os : list obs) : list T :=
  omap (λ o, match o with
             | OReceive _ c' p => if decide (c' = c) then Some p else None
             | _ => None
             end) os.

(** The trigger calls in the order in which they got the lock. *)
Definition acquired (os : list obs) : list (nat * T) :=
  omap (λ o, match o with
             | OAcquire tid p => Some (tid, p)
             | _ => None
             end) os.

(** The trigger call of task [tid] has put its payload into [c]. *)
Definition reached (c : nat) (os : list obs) (tid : nat) : bool :=
  existsb (λ o, match o with
                | OSend tid' c' _ => bool_decide (tid' = tid ∧ c' = c)
                | _ => false
                end) os.

(** The trigger call of task [tid] has returned normally. *)
Definition returned (os : list obs) (tid : nat) : bool :=
  existsb (λ o, match o with
                | OReturn tid' => bool_decide (tid' = tid)
                | _ => false
                end) os.

(** The position of task [tid], if it exists. *)
Definition pc_at (σ : config) (tid : nat) : option pc :=
  at_pc <$> tasks σ !! tid.

(** The positions at which a task owns the lock. *)
Definition holds_lock (k : pc) : bool :=
  match k with
  | TIterate _ _ | SAdd _ | SRemove _ _ => true
  | _ => false
  end.

(** The channel a subscription is about. *)
Definition channel_of (k : pc) : option nat :=
  match k with
  | SAcquire c | SAdd c | SYielded c
  | SClosing c _ | SFinally c _ | SRemove c _ => Some c
  | _ => None
  end.

(** The positions between registration and removal. *)
Definition registered_at (k : pc) : option nat :=
  match k with
  | SYielded c | SClosing c _ | SFinally c _ | SRemove c _ => Some c
  | _ => None
  end.

(** The positions at which the subscription's channel is open. *)
Definition open_at (k : pc) : option nat :=
  match k with
  | SAcquire c | SAdd c | SYielded c => Some c
  | _ => None
  end.

(** What holds of every configuration the scheduler can reach. *)
Record Inv (σ : config) : Prop := {
  inv_lock : ∀ tid t, tasks σ !! tid = Some t →
    (holds_lock (at_pc t) = true ↔ _lock (event σ) = Some tid);
  inv_owner : ∀ tid, _lock (event σ) = Some tid → is_Some (tasks σ !! tid);
  inv_iter : ∀ tid t p it, tasks σ !! tid = Some t →
    at_pc t = TIterate p it →
    NoDup it ∧ ∀ c, c ∈ it → c ∈ _channels (event σ);
  inv_dom : ∀ c, c ∈ _channels (event σ) → is_Some (chans σ !! c);
  inv_own : ∀ tid t c, tasks σ !! tid = Some t →
    channel_of (at_pc t) = Some c → is_Some (chans σ !! c);
  inv_distinct : ∀ tid1 tid2 t1 t2 c,
    tasks σ !! tid1 = Some t1 → tasks σ !! tid2 = Some t2 →
    channel_of (at_pc t1) = Some c → channel_of (at_pc t2) = Some c →
    tid1 = tid2;
  inv_registered : ∀ tid t c, tasks σ !! tid = Some t →
    registered_at (at_pc t) = Some c → c ∈ _channels (event σ);
  inv_open : ∀ tid t c ch, tasks σ !! tid = Some t →
    open_at (at_pc t) = Some c → chans σ !! c = Some ch →
    Channel.closed ch = false;
  inv_capacity : ∀ c ch, chans σ !! c = Some ch →
    Channel.max_buffer_size ch = capacity
    ∧ length (Channel.data ch) ≤ capacity
}.

(** The task whose subscription an action opens, advances or closes, if
    the action is of that sort. *)
Definition subscription_step (σ : config) (a : action) : option nat :=
  match a with
  | CallSubscribe tid => Some tid
  | Exit tid _ => Some tid
  | Run tid =>
      match pc_at σ tid with
      | Some (TAcquire _) | Some (TIterate _ _) | None => None
      | Some _ => Some tid
      end
  | _ => None
  end.

(** The positions of a trigger call of payload [p] once it has got the
    lock. *)
Definition after_acquire (p : T) (k : pc) : Prop :=
  match k with
  | TIterate p' _ => p' = p
  | Returned | Raised _ => True
  | _ => False
  end.

(** How far a task has come: no step moves a task back. *)
Definition rank (k : pc) : nat :=
  match k with
  | TAcquire _ | SOpen => 0
  | TIterate _ _ | SAcquire _ => 1
  | SAdd _ => 2
  | SYielded _ => 3
  | SClosing _ _ => 4
  | SFinally _ _ => 5
  | SRemove _ _ => 6
  | Returned | Raised _ => 7
  end.

(** A stretch of an execution seen from the subscriber of channel [c]: the
    stretch starts at a moment when the lock is free and the queue holds
    [d0]; [os] is what has been observed since, [σ] where it has led. *)
Record Window (c : nat) (d0 : list T) (σ : config) (os : list obs)
  : Prop := {
  w_fifo : ∃ ch, chans σ !! c = Some ch
    ∧ d0 ++ sent c os = received c os ++ Channel.data ch;
  w_order :
    sent c os = (filter (λ e, reached c os e.1) (acquired os)).*2;
  w_nodup : NoDup (acquired os).*1;
  w_pcs : ∀ tid p, (tid, p) ∈ acquired os →
    ∃ t, tasks σ !! tid = Some t ∧ after_acquire p (at_pc t);
  w_inflight : ∀ tid t p it, tasks σ !! tid = Some t →
    at_pc t = TIterate p it →
    (∃ acq, acquired os = acq ++ [(tid, p)])
    ∧ (c ∈ it ↔ reached c os tid = false);
  w_reached : ∀ tid, reached c os tid = true → tid ∈ (acquired os).*1;
  w_returned : ∀ tid, returned os tid = true →
    pc_at σ tid = Some Returned;
  w_complete : ∀ tid, tid ∈ (acquired os).*1 →
    returned os tid = true → reached c os tid = true
}.

End WithPayload.
Arguments Event : clear implicits.
Arguments pc : clear implicits.
Arguments task : clear implicits.
Arguments config : clear implicits.
Arguments action : clear implicits.
Arguments obs : clear implicits.
End EventModel.

(** ** Events (events.py, lines 71-94) *)

Module Events.
Import EventModel.

(** The ten message kinds of [alexandria.payloads]. *)
Inductive MessageKind :=
| Ping | Pong | FindNodes | FoundNodes | Advertise | Ack
| Locate | Locations | Retrieve | Chunk.

Definition kind_name (k : MessageKind) : string :=
  match k with
  | Ping => "Ping" | Pong => "Pong"
  | FindNodes => "FindNodes" | FoundNodes => "FoundNodes"
  | Advertise => "Advertise" | Ack => "Ack"
  | Locate => "Locate" | Locations => "Locations"
  | Retrieve => "Retrieve" | Chunk => "Chunk"
  end.

Definition message_kinds : list MessageKind :=
  [Ping; Pong; FindNodes; FoundNodes; Advertise; Ack;
   Locate; Locations; Retrieve; Chunk].

(** The instance: one attribute per event, each a reference to an [Event]
    object in the store. *)
Record Events := {
  listening : nat;
  session_created : nat;
  session_idle : nat;
  handshake_complete : nat;
  handshake_timeout : nat;
  sent_ping : nat;
  sent_pong : nat;
  sent_find_nodes : nat;
  sent_found_nodes : nat;
  sent_advertise : nat;
  sent_ack : nat;
  sent_locate : nat;
  sent_locations : nat;
  sent_retrieve : nat;
  sent_chunk : nat
}.

(** [Event(name)]: a new object in the store. *)
Definition new_Event (n : string) (h : gmap nat Event) : nat * gmap nat Event :=
  let r := fresh (dom h) in (r, <[r := Event_init n]> h).

(** [__init__] (lines 72-94) *)
Definition __init__ (h : gmap nat Event) : Events * gmap nat Event :=
  let '(e1, h) := new_Event "listening" h in
  let '(e2, h) := new_Event "session-created" h in
  let '(e3, h) := new_Event "session-idle" h in
  let '(e4, h) := new_Event "handshake-complete" h in
  let '(e5, h) := new_Event "handshake-timeout" h in
  let '(e6, h) := new_Event "sent-Ping" h in
  let '(e7, h) := new_Event "sent-Pong" h in
  let '(e8, h) := new_Event "sent-FindNodes" h in
  let '(e9, h) := new_Event "sent-FoundNodes" h in
  let '(e10, h) := new_Event "sent-Advertise" h in
  let '(e11, h) := new_Event "sent-Ack" h in
  let '(e12, h) := new_Event "sent-Locate" h in
  let '(e13, h) := new_Event "sent-Locations" h in
  let '(e14, h) := new_Event "sent-Retrieve" h in
  let '(e15, h) := new_Event "sent-Chunk" h in
  ({| listening := e1; session_created := e2; session_idle := e3;
      handshake_complete := e4; handshake_timeout := e5;
      sent_ping := e6; sent_pong := e7;
      sent_find_nodes := e8; sent_found_nodes := e9;
      sent_advertise := e10; sent_ack := e11;
      sent_locate := e12; sent_locations := e13;
      sent_retrieve := e14; sent_chunk := e15 |}, h).

(** The attributes, in the order of their declaration. *)
Definition attributes (r : Events) : list nat :=
  [listening r; session_created r; session_idle r;
   handshake_complete r; handshake_timeout r;
   sent_ping r; sent_pong r; sent_find_nodes r; sent_found_nodes r;
   sent_advertise r; sent_ack r; sent_locate r; sent_locations r;
   sent_retrieve r; sent_chunk r].

(** The names the table of the specification declares. *)
Definition declared_names : list string :=
  ["listening"; "session-created"; "session-idle";
   "handshake-complete"; "handshake-timeout"]
  ++ map (λ k, "sent-" +:+ kind_name k) message_kinds.

(** [Event(n)] for each name of a list, one after the other. *)
Fixpoint new_Events (names : list string) (h : gmap nat Event)
  : list nat * gmap nat Event :=
  match names with
  | [] => ([], h)
  | n :: names' =>
      let '(r, h1) := new_Event n h in
      let '(rs, h2) := new_Events names' h1 in
      (r :: rs, h2)
  end.

End Events.

(** * Schedules

    Closed schedules over [nat] payloads, with the set iterated in the order
    of [elements]; the properties below are evaluated on them. *)

Module Scenario.
Import EventModel.

(** Tasks 1 and 2 subscribe, one after the other, and are in their blocks:
    task 1 with channel 0 and task 2 with channel 1. *)
Definition two_subscribers : list (action nat) :=
  [CallSubscribe 1; Run 1; Run 1; Run 1;
   CallSubscribe 2; Run 2; Run 2; Run 2].

(** Task 3 calls [trigger(7)] and gets the lock; before its loop starts,
    subscriber 2 leaves its block, which closes its receive handle, and waits
    for the lock; then the loop runs. *)
Definition trigger_meets_closed : list (action nat) :=
  [CallTrigger 3 7; Run 3; Exit 2 None; Run 2; Run 3].

(** A subscription of task [tid] that is cancelled in its block. *)
Definition cancelled_cycle (tid : nat) : list (action nat) :=
  [CallSubscribe tid; Run tid; Run tid; Run tid;
   Cancel tid; Exit tid (Some Cancelled); Run tid; Run tid].

(** Task 1 subscribes; then [n] trigger calls, by tasks 2, 3, ..., each run
    to its end, while the subscriber receives nothing. *)
Definition fill (n : nat) : list (action nat) :=
  [CallSubscribe 1; Run 1; Run 1; Run 1]
  ++ flat_map (λ i, [CallTrigger (2 + i) i; Run (2 + i); Run (2 + i);
                     Run (2 + i)]) (seq 0 n).

(** Where a schedule leads from a new event, and what it shows. *)
Definition two_triggers : list (action nat) :=
  [CallTrigger 3 7; Run 3; Run 3; Run 3; Run 3; Receive 1;
   CallTrigger 4 8; Run 4; Run 4; Run 4; Run 4].
Definition state_from (σ : config nat) (acts : list (action nat)) : config nat :=
  match run elements acts σ with Some (σ', _) => σ' | None => σ end.
Definition seen_from (σ : config nat) (acts : list (action nat)) : list (obs nat) :=
  match run elements acts σ with Some (_, os) => os | None => [] end.
Definition state_after (acts : list (action nat)) : config nat :=
  state_from (init "e") acts.
Definition seen_after (acts : list (action nat)) : list (obs nat) :=
  seen_from (init "e") acts.
End Scenario.

(** ** What [subscribe] has still to raise *)

Module Pending.
Import EventModel.
(** The exception that leaving [subscribe] will raise once the cleanup is
    over, if any. *)
Definition pending {T} (k : pc T) : option exn :=
  match k with
  | SClosing _ pend | SFinally _ pend | SRemove _ pend => pend
  | _ => None
  end.
End Pending.

(** ** Whose step, whose observation *)

Module Actors.
Import EventModel.
(** The task an action is about. *)
Definition actor {T} (a : action T) : nat :=
  match a with
  | CallTrigger tid _ | CallSubscribe tid | Run tid
  | Receive tid | Exit tid _ | Cancel tid => tid
  end.

(** The task an observation is about. *)
Definition obs_task {T} (o : obs T) : nat :=
  match o with
  | OAcquire tid _ | OSend tid _ _ | OReturn tid | ORaise tid _
  | ORegister tid _ | OReceive tid _ _ | OClose tid _
  | OUnregister tid _ => tid
  end.
End Actors.

(** * Properties *)

(** ** ReAwaitable *)

Section ReAwaitableFacts.
Import ReAwaitable.
Context {A : Type}.
Implicit Types (a : awaitable A) (r : ReAwaitable A) (h : heap A)
  (it : iterator A).

Lemma put_put i it it' h : put i it' (put i it h) = put i it' h.
Proof. unfold put; simpl. by rewrite insert_insert_eq. Qed.

Lemma put_lookup i it h : iters (put i it h) !! i = Some it.
Proof. apply lookup_insert_eq. Qed.

(** A lone task drives a running iterator to its end in as many suspensions
    as the body has left. *)
Lemma drive_running n : ∀ fuel i h it susp,
  iters h !! i = Some it →
  it_finished it = false →
  it_left it = n →
  n < fuel →
  drive fuel i h susp
  = Some (result_of (it_outcome it), susp + n, put i (finish it) h).
Proof.
  induction n as [|n IH]; intros fuel i h it susp Hi Hf Hn Hfuel;
    (destruct fuel as [|fuel]; [lia|]); simpl; unfold resume, next;
    rewrite Hi, Hf, Hn.
  - rewrite Nat.add_0_r. unfold finish. by destruct (it_outcome it).
  - set (it' := {| it_kind := it_kind it; it_left := n;
                   it_outcome := it_outcome it; it_finished := false |}).
    change ({| iters := <[i:=it']> (iters h); invocations := invocations h |})
      with (put i it' h).
    rewrite (IH fuel i (put i it' h) it' (S susp));
      [|apply put_lookup|done|done|lia].
    rewrite put_put. unfold finish; simpl. do 3 f_equal. lia.
Qed.

Lemma drive_finished fuel i h it :
  iters h !! i = Some it →
  it_finished it = true →
  drive (S fuel) i h 0 = Some (exhausted_answer (it_kind it), 0, put i it h).
Proof.
  intros Hi Hf. simpl. unfold resume, next. rewrite Hi, Hf.
  by destruct (it_kind it).
Qed.

(** The first await of a new wrapper, when the wrapped awaitable's
    [__await__] returns: one call of it, the body's suspensions, the body's
    outcome. *)
Lemma first_await a h fuel :
  aw_call a (invocations h) = None →
  aw_suspensions a < fuel →
  ∃ i r' h',
    await fuel (__init__ a) h
    = Some (result_of (aw_outcome a), aw_suspensions a, r', h')
    ∧ _result r' = Some i
    ∧ _awaitable r' = a
    ∧ invocations h' = S (invocations h)
    ∧ iters h' !! i
      = Some {| it_kind := aw_kind a; it_left := 0;
                it_outcome := aw_outcome a; it_finished := true |}.
Proof.
  intros Hcall Hfuel. unfold await, __await__, awaitable_await. simpl.
  rewrite Hcall.
  set (i := fresh (dom (iters h))).
  set (it := {| it_kind := aw_kind a; it_left := aw_suspensions a;
                it_outcome := aw_outcome a; it_finished := false |}).
  set (h1 := {| iters := <[i:=it]> (iters h);
                invocations := S (invocations h) |}).
  rewrite (drive_running (aw_suspensions a) fuel i h1 it 0);
    [|apply lookup_insert_eq|done|done|done].
  eexists i, _, _. split; [reflexivity|].
  repeat split; try done. apply put_lookup.
Qed.

(** A later await of a wrapper whose iterator is exhausted. *)
Lemma later_await r h i it fuel :
  _result r = Some i →
  iters h !! i = Some it →
  it_finished it = true →
  await (S fuel) r h = Some (exhausted_answer (it_kind it), 0, r, put i it h).
Proof.
  intros Hr Hi Hf. destruct r as [a res]; simpl in Hr; subst res.
  unfold await, __await__, is_done; cbn [_result negb].
  by rewrite (drive_finished fuel i h it).
Qed.

End ReAwaitableFacts.

Section ReAwaitableClaims.
Import ReAwaitable.
Context {A : Type}.

(** Once [_result] is set, no operation changes it or calls the wrapped
    awaitable's [__await__]. *)
Lemma exec_done (s : ReAwaitable A * heap A) o i :
  _result s.1 = Some i →
  _result (exec s o).1 = Some i
  ∧ invocations (exec s o).2 = invocations s.2.
Proof.
  destruct s as [[a [j|]] h]; simpl; [|done]. intros [= ->].
  destruct o; unfold __await__, resume; simpl; [done|].
  destruct (iters h !! i) as [it|]; simpl; [|done].
  by destruct (next it).
Qed.

Lemma run_done ops : ∀ (s : ReAwaitable A * heap A) i,
  _result s.1 = Some i →
  _result (foldl exec s ops).1 = Some i
  ∧ invocations (foldl exec s ops).2 = invocations s.2.
Proof.
  induction ops as [|o ops IH]; intros s i Hs; [done|].
  cbn [foldl]. destruct (exec_done s o i Hs) as [H1 H2].
  destruct (IH (exec s o) i H1) as [H3 H4]. split; [done|congruence].
Qed.

Lemma awaits_pos (ops : list op) : 0 < awaits ops ↔ OpAwait ∈ ops.
Proof.
  induction ops as [|[|] ops IH]; simpl.
  - split; [lia|by intros ?%elem_of_nil].
  - split; [intros _; apply list_elem_of_here|lia].
  - rewrite IH, elem_of_cons. split; [by right|by intros [?|?]].
Qed.

(** A new wrapper under any sequence of operations: as long as the wrapped
    [__await__] has raised, every await has called it again and [_result] is
    still absent; the first call that returns is the last one. *)
Lemma run_new (a : awaitable A) ops : ∀ h : heap A,
  let s := foldl exec (__init__ a, h) ops in
  (is_done s.1 = false
   ∧ invocations s.2 = invocations h + awaits ops
   ∧ ∀ j, j < awaits ops → aw_call a (invocations h + j) ≠ None)
  ∨ (is_done s.1 = true
     ∧ ∃ j, j < awaits ops
            ∧ aw_call a (invocations h + j) = None
            ∧ (∀ i, i < j → aw_call a (invocations h + i) ≠ None)
            ∧ invocations s.2 = invocations h + S j).
Proof.
  induction ops as [|o ops IH]; intros h; cbv zeta.
  - left. simpl. split; [done|]. split; [lia|]. intros j Hj. lia.
  - destruct o; cbn [foldl awaits].
    + destruct (aw_call a (invocations h)) as [e|] eqn:Hcall.
      * set (h1 := {| iters := iters h; invocations := S (invocations h) |}).
        assert (exec (__init__ a, h) OpAwait = (__init__ a, h1)) as ->.
        { unfold exec, __await__, awaitable_await. simpl. by rewrite Hcall. }
        destruct (IH h1) as [(Hd & Hinv & Hall)|(Hd & j & Hj & Hc & Hm & Hinv)];
          unfold h1 in *; cbn [invocations] in *.
        -- left. split; [done|]. split; [lia|].
           intros [|j] Hj; [rewrite Nat.add_0_r; congruence|].
           replace (invocations h + S j) with (S (invocations h) + j) by lia.
           apply Hall. lia.
        -- right. split; [done|]. exists (S j). split; [lia|].
           replace (invocations h + S j) with (S (invocations h) + j) by lia.
           split; [done|]. split; [|lia].
           intros [|i] Hi; [rewrite Nat.add_0_r; congruence|].
           replace (invocations h + S i) with (S (invocations h) + i) by lia.
           apply Hm. lia.
      * set (i := fresh (dom (iters h))).
        set (s0 := exec (__init__ a, h) OpAwait).
        assert (_result s0.1 = Some i ∧ invocations s0.2 = S (invocations h))
          as [Hr0 Hi0].
        { unfold s0, exec, __await__, awaitable_await. simpl.
          by rewrite Hcall. }
        destruct (run_done ops s0 i Hr0) as [Hr Hinv].
        right. split; [unfold is_done; by rewrite Hr|].
        exists 0. split; [lia|]. rewrite Nat.add_0_r. split; [done|].
        split; [intros ??; lia|]. rewrite Hinv, Hi0. lia.
    + assert (exec (__init__ a, h) OpResume = (__init__ a, h)) as -> by done.
      apply IH.
Qed.

(** C2, evaluated on the code: a wrapper around a computation that returns
    [v] after [n] suspensions is awaited twice in sequence.  The first await
    evaluates to [v].  The second does not suspend and does not call the
    wrapped awaitable again, but it does not evaluate to [v]: a coroutine
    raises RuntimeError and a generator-based awaitable gives None. *)
Theorem reawaitable_second_await_of_value
  (k : awaitable_kind) (n : nat) (v : A) (h : heap A) :
  let a := {| aw_kind := k; aw_suspensions := n; aw_outcome := Return v;
              aw_call := returns_iterator |} in
  ∃ r1 h1 h2,
    await (S n) (__init__ a) h = Some (Value (PyVal v), n, r1, h1)
    ∧ await 1 r1 h1 = Some (exhausted_answer k, 0, r1, h2)
    ∧ invocations h2 = S (invocations h)
    ∧ exhausted_answer k ≠ Value (PyVal v).
Proof.
  intros a.
  destruct (first_await a h (S n)) as (i & r1 & h1 & H1 & Hr & _ & Hinv & Hit);
    [done|simpl; lia|].
  exists r1, h1, (put i (finish {| it_kind := k; it_left := 0;
                                   it_outcome := Return v;
                                   it_finished := true |}) h1).
  split; [exact H1|]. split.
  - by rewrite (later_await r1 h1 i _ 0 Hr Hit).
  - split; [exact Hinv|]. by destruct k.
Qed.

(** C2 at one input: a coroutine that returns 42 without suspending. *)
Example reawaitable_second_await_42 :
  let a := {| aw_kind := CoroutineObject; aw_suspensions := 0;
              aw_outcome := Return 42; aw_call := returns_iterator |} in
  ∃ r1 h1 r2 h2,
    await 1 (__init__ a) empty_heap = Some (Value (PyVal 42), 0, r1, h1)
    ∧ await 1 r1 h1 = Some (Exception RuntimeError, 0, r2, h2).
Proof. cbv zeta. do 4 eexists. split; vm_compute; reflexivity. Qed.

(** C4, evaluated on the code: a wrapper around a computation that raises
    [e] after [n] suspensions is awaited twice in sequence.  The first await
    raises [e].  The second does not run the computation again, but it does
    not raise [e] either: a coroutine raises RuntimeError and a
    generator-based awaitable gives None. *)
Theorem reawaitable_second_await_of_failure
  (k : awaitable_kind) (n : nat) (e : exn) (h : heap A) :
  let a := {| aw_kind := k; aw_suspensions := n; aw_outcome := Raise e;
              aw_call := returns_iterator |} in
  ∃ r1 h1 h2,
    await (S n) (__init__ a) h = Some (Exception e, n, r1, h1)
    ∧ await 1 r1 h1 = Some (exhausted_answer k, 0, r1, h2)
    ∧ invocations h2 = S (invocations h)
    ∧ (exhausted_answer (A:=A) k = Exception e
       ↔ k = CoroutineObject ∧ e = RuntimeError).
Proof.
  intros a.
  destruct (first_await a h (S n)) as (i & r1 & h1 & H1 & Hr & _ & Hinv & Hit);
    [done|simpl; lia|].
  exists r1, h1, (put i (finish {| it_kind := k; it_left := 0;
                                   it_outcome := Raise e;
                                   it_finished := true |}) h1).
  split; [exact H1|]. split.
  - by rewrite (later_await r1 h1 i _ 0 Hr Hit).
  - split; [exact Hinv|]. destruct k; simpl; split.
    + intros [= <-]. done.
    + by intros [_ ->].
    + done.
    + by intros [? _].
Qed.

(** C4 at one input: a generator-based awaitable that raises at once. *)
Example reawaitable_second_await_failure_7 :
  let a := {| aw_kind := GeneratorAwait; aw_suspensions := 0;
              aw_outcome := Raise (Failure 7);
              aw_call := returns_iterator |} : awaitable nat in
  ∃ r1 h1 r2 h2,
    await 1 (__init__ a) empty_heap = Some (Exception (Failure 7), 0, r1, h1)
    ∧ await 1 r1 h1 = Some (Value PyNone, 0, r2, h2).
Proof. cbv zeta. do 4 eexists. split; vm_compute; reflexivity. Qed.



(** The wrapped [__await__()] raises at its first call and returns at its
    second: after one await [is_done] is false, after two it is true, and
    the wrapped awaitable has been called twice. *)
Example reawaitable_call_raises_once :
  let a := {| aw_kind := GeneratorAwait; aw_suspensions := 1;
              aw_outcome := Return 42;
              aw_call := λ k, match k with
                              | 0 => Some (Failure 1)
                              | _ => None
                              end |} in
  let s1 := foldl exec (__init__ a, empty_heap) [OpAwait] in
  let s2 := foldl exec (__init__ a, empty_heap) [OpAwait; OpAwait] in
  await 1 (__init__ a) empty_heap
  = Some (Exception (Failure 1), 0, __init__ a, s1.2)
  ∧ is_done s1.1 = false ∧ invocations s1.2 = 1
  ∧ is_done s2.1 = true ∧ invocations s2.2 = 2.
Proof. cbv zeta. repeat split; vm_compute; reflexivity. Qed.

End ReAwaitableClaims.

(** ** Events *)

Section EventsClaims.
Import EventModel Events.

Lemma new_Events_spec (names : list string) : ∀ (h h' : gmap nat Event) rs,
  new_Events names h = (rs, h') →
  length rs = length names
  ∧ NoDup rs
  ∧ (∀ r, r ∈ rs → h !! r = None)
  ∧ (∀ r, r ∉ rs → h' !! r = h !! r)
  ∧ (∀ i r n, rs !! i = Some r → names !! i = Some n →
       h' !! r = Some (Event_init n)).
Proof.
  induction names as [|n names IH]; intros h h' rs;
    cbn [new_Events]; unfold new_Event; cbn zeta.
  - intros [= <- <-]. split; [done|]. split; [constructor|].
    split; [by intros r ?%elem_of_nil|]. split; [done|]. by intros [|?] ???.
  - set (r0 := fresh (dom h)).
    destruct (new_Events names (<[r0:=Event_init n]> h)) as [rs1 h1] eqn:E.
    intros [= <- <-].
    destruct (IH _ _ _ E) as (Hlen & Hnd & Hnew & Hold & Hnames).
    assert (Hr0 : h !! r0 = None).
    { apply not_elem_of_dom. apply is_fresh. }
    assert (Hnotin : r0 ∉ rs1).
    { intros Hin. specialize (Hnew _ Hin). by rewrite lookup_insert_eq in Hnew. }
    split; [simpl; by rewrite Hlen|]. split; [by constructor|].
    split; [|split].
    + intros r [->|Hin]%elem_of_cons; [done|].
      specialize (Hnew _ Hin).
      destruct (decide (r0 = r)) as [->|Hne]; [done|].
      by rewrite lookup_insert_ne in Hnew.
    + intros r Hr. rewrite not_elem_of_cons in Hr. destruct Hr as [Hne Hr].
      rewrite (Hold _ Hr). by rewrite lookup_insert_ne.
    + intros [|i] r n'; simpl.
      * intros [= <-] [= <-]. rewrite (Hold _ Hnotin).
        apply lookup_insert_eq.
      * apply Hnames.
Qed.

Lemma declared_names_eq :
  declared_names
  = ["listening"; "session-created"; "session-idle"; "handshake-complete";
     "handshake-timeout"; "sent-Ping"; "sent-Pong"; "sent-FindNodes";
     "sent-FoundNodes"; "sent-Advertise"; "sent-Ack"; "sent-Locate";
     "sent-Locations"; "sent-Retrieve"; "sent-Chunk"].
Proof. reflexivity. Qed.

Lemma init_as_list (h : gmap nat Event) :
  new_Events declared_names h
  = (attributes (__init__ h).1, (__init__ h).2).
Proof.
  rewrite declared_names_eq. unfold __init__. cbn [new_Events].
  repeat match goal with
         | |- context [new_Event ?n ?h0] =>
             is_var h0; destruct (new_Event n h0) as [? ?]
         end.
  reflexivity.
Qed.

(** C8: constructing the registry is a total function of the store; it
    creates fifteen new [Event] objects, pairwise distinct, one for each name
    of the declared table and in that order, each with its declared name, no
    subscriber and a free lock; the objects already in the store are left as
    they were.  The registry itself is an immutable record of references, so
    reading an attribute gives the same object every time. *)
Theorem events_init_declares_table (h : gmap nat Event) :
  let reg := (__init__ h).1 in
  let h' := (__init__ h).2 in
  ((λ r, name <$> h' !! r) <$> attributes reg) = (Some <$> declared_names)
  ∧ declared_names
    = ["listening"; "session-created"; "session-idle"; "handshake-complete";
       "handshake-timeout"; "sent-Ping"; "sent-Pong"; "sent-FindNodes";
       "sent-FoundNodes"; "sent-Advertise"; "sent-Ack"; "sent-Locate";
       "sent-Locations"; "sent-Retrieve"; "sent-Chunk"]
  ∧ NoDup declared_names
  ∧ NoDup (attributes reg)
  ∧ (∀ r, r ∈ attributes reg →
       h !! r = None ∧ ∃ n, n ∈ declared_names ∧ h' !! r = Some (Event_init n))
  ∧ (∀ r, r ∉ attributes reg → h' !! r = h !! r).
Proof.
  intros reg h'.
  destruct (new_Events_spec declared_names h h' (attributes reg)
              (init_as_list h)) as (Hlen & Hnd & Hnew & Hold & Hnames).
  clearbody reg h'.
  split; [|split; [exact declared_names_eq|split; [|split; [exact Hnd|split; [|exact Hold]]]]].
  - apply list_eq. intros i. rewrite !list_lookup_fmap.
    destruct (attributes reg !! i) as [r|] eqn:Hr.
    + destruct (lookup_lt_is_Some_2 declared_names i) as [n Hn].
      { rewrite <-Hlen. by eapply lookup_lt_Some. }
      rewrite Hn. simpl. by rewrite (Hnames i r n Hr Hn).
    + rewrite (lookup_ge_None_2 declared_names i); [done|].
      rewrite <-Hlen. by apply lookup_ge_None_1.
  - rewrite declared_names_eq. apply (bool_decide_unpack _). by vm_compute.
  - intros r Hr. split; [by apply Hnew|].
    apply list_elem_of_lookup in Hr as [i Hi].
    destruct (lookup_lt_is_Some_2 declared_names i) as [n Hn].
    { rewrite <-Hlen. by eapply lookup_lt_Some. }
    exists n. split; [by eapply list_elem_of_lookup_2|by eapply Hnames].
Qed.

End EventsClaims.

(** ** Event *)

Section EventFacts.
Import EventModel.
Context {T : Type}.
Variable set_iter : gset nat → list nat.
Hypothesis set_iter_perm : ∀ s, set_iter s ≡ₚ elements s.
Local Abbreviation step := (EventModel.step set_iter).
Local Abbreviation run := (EventModel.run set_iter).
Implicit Types (σ : config T) (t : task T) (os : list (obs T)) (k : pc T).

(** *** The invariant *)

Ltac step_inv H :=
  unfold EventModel.step, trigger, subscribe, receive,
    Channel.send_nowait, Channel.receive_nowait in H;
  repeat (case_match; simplify_eq); simplify_eq.

Ltac own_or_other H :=
  apply lookup_insert_Some in H as [[? ?]|[? H]]; simplify_eq/=.

Ltac rewrite_pc :=
  repeat match goal with H : at_pc _ = _ |- _ => rewrite H in * end.

Lemma Inv_init n : Inv (T:=T) (init n).
Proof.
  split; simpl; try done.
  all: try by intros; simplify_map_eq.
Qed.

Lemma step_lock a σ σ' os :
  Inv σ → step a σ = Some (σ', os) →
  ∀ tid t, tasks σ' !! tid = Some t →
    (holds_lock (at_pc t) = true ↔ _lock (event σ') = Some tid).
Proof.
  intros [Hlock Howner _ _ _ _ _ _ _] H tid0 t0 Ht0.
  step_inv H; simpl in *.
  all: try own_or_other Ht0.
  all: repeat match goal with
         | Ht : tasks _ !! ?x = Some ?t |- _ =>
             lazymatch goal with
             | _ : holds_lock (at_pc t) = true ↔ _ |- _ => fail
             | _ => pose proof (Hlock x t Ht)
             end
         end.
  all: try (pose proof (Howner tid0)).
  all: clear Hlock Howner; rewrite_pc; simpl in *.
  all: try (destruct (_lock (event _)); simplify_eq; try rewrite is_Some_alt in *;
         repeat case_match; simplify_eq; intuition congruence).
Qed.

Lemma step_owner a σ σ' os :
  Inv σ → step a σ = Some (σ', os) →
  ∀ tid, _lock (event σ') = Some tid → is_Some (tasks σ' !! tid).
Proof.
  intros [_ Howner _ _ _ _ _ _ _] H tid0 Hl.
  step_inv H; simpl in *; simplify_eq.
  all: try (rewrite lookup_insert_is_Some; destruct (decide (tid = tid0));
            [by left|right; split; [done|by apply Howner]]).
  all: try by apply Howner.
  all: rewrite lookup_insert_eq; eauto.
Qed.

Lemma set_iter_NoDup s : NoDup (set_iter s).
Proof. rewrite set_iter_perm. apply NoDup_elements. Qed.

Lemma elem_of_set_iter s c : c ∈ set_iter s ↔ c ∈ s.
Proof. rewrite set_iter_perm. apply elem_of_elements. Qed.

Lemma step_iter a σ σ' os :
  Inv σ → step a σ = Some (σ', os) →
  ∀ tid t p it, tasks σ' !! tid = Some t → at_pc t = TIterate p it →
    NoDup it ∧ ∀ c, c ∈ it → c ∈ _channels (event σ').
Proof.
  intros [Hlock _ Hiter _ _ _ _ _ _] H tid0 t0 p0 it0 Ht0 Hpc0.
  step_inv H; simpl in *.
  all: try own_or_other Ht0.
  all: try by eapply Hiter.
  all: try (split; [apply set_iter_NoDup|by intros ? ?%elem_of_set_iter]).
  - destruct (Hiter _ _ _ _ H0 H1) as [Hnd Hin].
    apply NoDup_cons in Hnd as [_ Hnd]. split; [done|].
    intros c Hc. apply Hin. by right.
  - destruct (Hiter _ _ _ _ Ht0 Hpc0) as [Hnd Hin].
    split; [done|]. intros c0 Hc0. apply elem_of_union_r. by apply Hin.
  - pose proof (Hlock _ _ Ht0) as Hl0. pose proof (Hlock _ _ H0) as Hl.
    rewrite Hpc0 in Hl0. rewrite H1 in Hl. simpl in *.
    destruct Hl0 as [Hl0 _], Hl as [Hl _]. rewrite Hl0 in Hl by done.
    by specialize (Hl eq_refl); simplify_eq.
  - pose proof (Hlock _ _ Ht0) as Hl0. pose proof (Hlock _ _ H0) as Hl.
    rewrite Hpc0 in Hl0. rewrite H1 in Hl. simpl in *.
    destruct Hl0 as [Hl0 _], Hl as [Hl _]. rewrite Hl0 in Hl by done.
    by specialize (Hl eq_refl); simplify_eq.
Qed.

Lemma step_dom a σ σ' os :
  Inv σ → step a σ = Some (σ', os) →
  ∀ c, c ∈ _channels (event σ') → is_Some (chans σ' !! c).
Proof.
  intros [_ _ _ Hdom Hown _ _ _ _] H c0 Hc0.
  step_inv H; simpl in *.
  all: try by apply Hdom.
  all: try (rewrite lookup_insert_is_Some';  right; by apply Hdom).
  - apply elem_of_union in Hc0 as [->%elem_of_singleton|?]; [|by apply Hdom].
    eapply Hown; [done|]. by rewrite H1.
  - apply Hdom. by apply elem_of_difference in Hc0 as [? _].
  - apply Hdom. by apply elem_of_difference in Hc0 as [? _].
Qed.

Lemma step_own a σ σ' os :
  Inv σ → step a σ = Some (σ', os) →
  ∀ tid t c, tasks σ' !! tid = Some t →
    channel_of (at_pc t) = Some c → is_Some (chans σ' !! c).
Proof.
  intros [_ _ _ _ Hown _ _ _ _] H tid0 t0 c0 Ht0 Hc0.
  step_inv H; simpl in *.
  all: try own_or_other Ht0.
  all: try (rewrite lookup_insert_is_Some';
            first [by left | right]).
  all: try by eapply Hown.
  all: try (eapply Hown; [eassumption|]; rewrite_pc; done).
Qed.

Lemma step_distinct a σ σ' os :
  Inv σ → step a σ = Some (σ', os) →
  ∀ tid1 tid2 t1 t2 c,
    tasks σ' !! tid1 = Some t1 → tasks σ' !! tid2 = Some t2 →
    channel_of (at_pc t1) = Some c → channel_of (at_pc t2) = Some c →
    tid1 = tid2.
Proof.
  intros [_ _ _ _ Hown Hdist _ _ _] H tid1 tid2 t1 t2 c0 Ht1 Ht2 Hc1 Hc2.
  step_inv H; simpl in *.
  all: try own_or_other Ht1.
  all: try own_or_other Ht2.
  all: try done.
  all: try by eapply Hdist.
  all: try (eapply Hdist; [eassumption|eassumption|rewrite_pc; done..]).
  all: exfalso; eapply (is_fresh (dom (chans σ))), elem_of_dom, Hown; eauto.
Qed.

Lemma registered_channel k c : registered_at k = Some c → channel_of k = Some c.
Proof. by destruct k. Qed.

Lemma open_channel k c : open_at k = Some c → channel_of k = Some c.
Proof. by destruct k. Qed.

Lemma step_registered a σ σ' os :
  Inv σ → step a σ = Some (σ', os) →
  ∀ tid t c, tasks σ' !! tid = Some t →
    registered_at (at_pc t) = Some c → c ∈ _channels (event σ').
Proof.
  intros [_ _ _ _ _ Hdist Hreg _ _] H tid0 t0 c0 Ht0 Hc0.
  step_inv H; simpl in *.
  all: try own_or_other Ht0.
  all: try by eapply Hreg.
  all: try (eapply Hreg; [eassumption|]; rewrite_pc; done).
  - apply elem_of_union_l. by apply elem_of_singleton.
  - apply elem_of_union_r. by eapply Hreg.
  - apply elem_of_difference. split; [by eapply Hreg|].
    intros ->%elem_of_singleton. apply H.
    eapply Hdist; [exact H0|exact Ht0|by rewrite H1|by apply registered_channel].
  - apply elem_of_difference. split; [by eapply Hreg|].
    intros ->%elem_of_singleton. apply H.
    eapply Hdist; [exact H0|exact Ht0|by rewrite H1|by apply registered_channel].
Qed.

Lemma step_open a σ σ' os :
  Inv σ → step a σ = Some (σ', os) →
  ∀ tid t c ch, tasks σ' !! tid = Some t →
    open_at (at_pc t) = Some c → chans σ' !! c = Some ch →
    Channel.closed ch = false.
Proof.
  intros [_ _ _ _ Hown Hdist _ Hopen _] H tid0 t0 c0 ch0 Ht0 Hc0 Hch0.
  step_inv H; simpl in *.
  all: try own_or_other Ht0.
  all: try by eapply Hopen.
  all: try (eapply Hopen; [eassumption| |eassumption]; rewrite_pc; done).
  all: try (apply lookup_insert_Some in Hch0 as [[? ?]|[? Hch0]];
            simplify_eq/=; try done).
  all: try by eapply Hopen.
  all: exfalso; apply H3;
    (eapply Hdist; [exact H0|exact Ht0|by rewrite H1|by apply open_channel]).
Qed.

Lemma step_capacity a σ σ' os :
  Inv σ → step a σ = Some (σ', os) →
  ∀ c ch, chans σ' !! c = Some ch →
    Channel.max_buffer_size ch = capacity
    ∧ length (Channel.data ch) ≤ capacity.
Proof.
  intros [_ _ _ _ _ _ _ _ Hcap] H c0 ch0 Hch0.
  step_inv H; simpl in *.
  all: try by eapply Hcap.
  all: apply lookup_insert_Some in Hch0 as [[? ?]|[? Hch0]];
       simplify_eq/=; try by eapply Hcap.
  all: try (split; [done|lia]).
  all: try (destruct (Hcap _ _ H3) as [Hm Hl]; split; [done|];
            rewrite ?length_app; simpl; lia).
  all: try (destruct (Hcap _ _ H2) as [Hm Hl]; split; [done|];
            rewrite ?length_app; simpl; lia).
  destruct (Hcap _ _ H3) as [Hm Hl]. rewrite H5 in Hl. simpl in Hl.
  split; [done|lia].
Qed.

(** Every step keeps the invariant. *)
Lemma Inv_step a σ σ' os : Inv σ → step a σ = Some (σ', os) → Inv σ'.
Proof.
  intros HI H. split.
  - by eapply step_lock.
  - by eapply step_owner.
  - by eapply step_iter.
  - by eapply step_dom.
  - by eapply step_own.
  - by eapply step_distinct.
  - by eapply step_registered.
  - by eapply step_open.
  - by eapply step_capacity.
Qed.

Lemma run_cons a acts σ σ'' os :
  run (a :: acts) σ = Some (σ'', os) ↔
  ∃ σ' o os', step a σ = Some (σ', o) ∧ run acts σ' = Some (σ'', os')
              ∧ os = o ++ os'.
Proof.
  cbn [EventModel.run]. split.
  - destruct (step a σ) as [[σ' o]|]; [|done].
    destruct (run acts σ') as [[σ2 os']|] eqn:E; [|done].
    intros [= <- <-]. by exists σ', o, os'.
  - intros (σ' & o & os' & -> & -> & ->). done.
Qed.

Lemma run_app acts1 : ∀ acts2 σ σ'' os,
  run (acts1 ++ acts2) σ = Some (σ'', os) ↔
  ∃ σ' os1 os2, run acts1 σ = Some (σ', os1) ∧ run acts2 σ' = Some (σ'', os2)
                ∧ os = os1 ++ os2.
Proof.
  induction acts1 as [|a acts1 IH]; intros acts2 σ σ'' os.
  - simpl. split.
    + intros H. exists σ, [], os. by simpl.
    + by intros (σ' & os1 & os2 & [= <- <-] & ? & ->).
  - rewrite <-app_comm_cons, run_cons. split.
    + intros (σ' & o & os' & Hs & Hr & ->).
      apply IH in Hr as (σ2 & os1 & os2 & H1 & H2 & ->).
      exists σ2, (o ++ os1), os2. split; [|split; [done|by rewrite app_assoc]].
      apply run_cons. by eexists _, _, _.
    + intros (σ2 & os1 & os2 & (σ' & o & os' & Hs & Hr & ->)%run_cons & H2 & ->).
      exists σ', o, (os' ++ os2). split; [done|]. split; [|by rewrite app_assoc].
      apply IH. by eexists _, _, _.
Qed.

Lemma run_snoc acts a σ σ'' os :
  run (acts ++ [a]) σ = Some (σ'', os) ↔
  ∃ σ' os1 o, run acts σ = Some (σ', os1) ∧ step a σ' = Some (σ'', o)
              ∧ os = os1 ++ o.
Proof.
  rewrite run_app. split.
  - intros (σ' & os1 & os2 & H1 & (σ2 & o & os' & Hs & [= <- <-] & ->)%run_cons & ->).
    rewrite app_nil_r. by eexists _, _, _.
  - intros (σ' & os1 & o & H1 & Hs & ->). exists σ', os1, o.
    split; [done|]. split; [|done]. apply run_cons.
    exists σ'', o, []. by rewrite app_nil_r.
Qed.

Lemma Inv_run acts : ∀ σ σ' os, Inv σ → run acts σ = Some (σ', os) → Inv σ'.
Proof.
  induction acts as [|a acts IH]; intros σ σ' os HI.
  - by intros [= <- <-].
  - intros (σ1 & o & os' & Hs & Hr & ->)%run_cons.
    eapply IH; [|done]. by eapply Inv_step.
Qed.

(** Every configuration reached from a new [Event] satisfies the invariant. *)
Lemma Inv_reachable n acts σ os :
  run acts (init n) = Some (σ, os) → Inv σ.
Proof. apply Inv_run, Inv_init. Qed.

(** *** One call at a time *)

Lemma set_iter_empty : set_iter ∅ = [].
Proof.
  apply Permutation_nil_r. rewrite set_iter_perm. by rewrite elements_empty.
Qed.

Lemma event_eta (e : Event) :
  {| name := name e; _lock := _lock e; _channels := _channels e |} = e.
Proof. by destruct e. Qed.

(** A [trigger(p)] called by a new task while the lock is free and no
    subscriber is registered, run with no step of another task in between:
    the call gets the lock, finds nothing to iterate over, releases the lock
    and returns. *)
Lemma trigger_without_subscribers σ tid p :
  tasks σ !! tid = None →
  _lock (event σ) = None →
  _channels (event σ) = ∅ →
  ∃ σ1 σ2,
    run [CallTrigger tid p; Run tid] σ = Some (σ1, [OAcquire tid p])
    ∧ _lock (event σ1) = Some tid
    ∧ step (Run tid) σ1 = Some (σ2, [OReturn tid])
    ∧ pc_at σ2 tid = Some Returned
    ∧ step (Run tid) σ2 = None
    ∧ event σ2 = event σ
    ∧ chans σ2 = chans σ
    ∧ ∀ tid', tid' ≠ tid → tasks σ2 !! tid' = tasks σ !! tid'.
Proof.
  intros Hnew Hlock Hch.
  eexists _, _. split.
  { cbn [EventModel.run EventModel.step]. rewrite Hnew. cbn.
    rewrite lookup_insert_eq. cbn. unfold trigger. cbn.
    rewrite Hlock, Hch, set_iter_empty. reflexivity. }
  split; [done|]. split.
  { cbn. rewrite lookup_insert_eq. cbn. unfold trigger. cbn. reflexivity. }
  split; [unfold pc_at; cbn; by rewrite lookup_insert_eq|].
  split; [cbn; by rewrite lookup_insert_eq|].
  split; [cbn; rewrite <-Hlock; apply event_eta|].
  split; [done|].
  intros tid' Hne. cbn. by rewrite !lookup_insert_ne.
Qed.

Lemma send_nowait_room p (ch : Channel.state T) :
  Channel.has_room ch → Channel.send_nowait p ch = Channel.Sent (Channel.push p ch).
Proof.
  intros [Hopen Hroom]. unfold Channel.send_nowait, Channel.push.
  destruct (Channel.closed ch); [done|].
  by destruct (decide _).
Qed.

(** The loop of [trigger] over a stretch [pre] of channels that are open and
    not full: one step per channel, each puts [p] at the tail of the queue. *)
Lemma trigger_loop tid p pre : ∀ σ t rest,
  tasks σ !! tid = Some t →
  at_pc t = TIterate p (pre ++ rest) →
  cancelled t = false →
  NoDup pre →
  (∀ c, c ∈ pre → ∃ ch, chans σ !! c = Some ch ∧ Channel.has_room ch) →
  ∃ σ',
    run (replicate (length pre) (Run tid)) σ
    = Some (σ', (λ c, OSend tid c p) <$> pre)
    ∧ tasks σ' = <[tid := {| cancelled := false; at_pc := TIterate p rest |}]>
                   (tasks σ)
    ∧ event σ' = event σ
    ∧ (∀ c ch, c ∈ pre → chans σ !! c = Some ch →
         chans σ' !! c = Some (Channel.push p ch))
    ∧ (∀ c, c ∉ pre → chans σ' !! c = chans σ !! c).
Proof.
  induction pre as [|c pre IH]; intros σ t rest Ht Hpc Hcan Hnd Hroom.
  - exists (set_task tid {| cancelled := false; at_pc := TIterate p rest |} σ).
    cbn. split.
    { f_equal. f_equal. destruct σ as [e ch ts]. unfold set_task. cbn in *.
      f_equal. symmetry. apply insert_id. rewrite Ht. f_equal.
      destruct t as [cn k]. cbn in *. by subst. }
    split; [done|]. split; [done|]. split; [|done].
    by intros c ch ?%elem_of_nil.
  - apply NoDup_cons in Hnd as [Hc Hnd].
    destruct (Hroom c) as (ch & Hch & Hr); [by left|].
    set (σ1 := goto tid t (TIterate p (pre ++ rest)) (set_chan c (Channel.push p ch) σ)).
    assert (Hs : step (Run tid) σ = Some (σ1, [OSend tid c p])).
    { cbn. rewrite Ht, Hpc. unfold trigger. rewrite Hpc, Hcan. cbn.
      by rewrite Hch, (send_nowait_room p ch Hr). }
    destruct (IH σ1 {| cancelled := cancelled t;
                       at_pc := TIterate p (pre ++ rest) |} rest)
      as (σ' & Hrun & Htasks & Hev & Hpre & Hother); try done.
    { cbn. by rewrite lookup_insert_eq. }
    { intros c' Hc'. destruct (Hroom c') as (ch' & Hch' & Hr'); [by right|].
      exists ch'. split; [|done]. cbn. rewrite lookup_insert_ne; [done|].
      by intros ->. }
    exists σ'. split.
    { cbn [length replicate]. apply run_cons.
      by exists σ1, [OSend tid c p], ((λ c, OSend tid c p) <$> pre). }
    split; [rewrite Htasks; cbn; by rewrite insert_insert_eq|].
    split; [by rewrite Hev|]. split.
    + intros c' ch' [->|Hin]%elem_of_cons Hch'.
      * rewrite Hother by done. cbn. rewrite lookup_insert_eq. congruence.
      * rewrite (Hpre c' ch' Hin); [done|]. cbn.
        rewrite lookup_insert_ne; [done|]. by intros ->.
    + intros c' [Hne Hnin]%not_elem_of_cons. rewrite Hother by done. cbn.
      by rewrite lookup_insert_ne.
Qed.

(** C1, amended: when the loop of [trigger] reaches a channel whose receive
    handle has been closed, after a stretch [pre] of channels that are open
    and not full, the subscribers of [pre] have received the payload, the
    call releases the lock and raises BrokenResourceError to its caller, and
    the channels after the closed one ([rest]) receive nothing: no other
    channel is touched and the call is over. *)
Theorem trigger_raises_at_closed_channel σ tid t p pre c rest ch :
  tasks σ !! tid = Some t →
  at_pc t = TIterate p (pre ++ c :: rest) →
  cancelled t = false →
  NoDup (pre ++ c :: rest) →
  (∀ c', c' ∈ pre → ∃ ch', chans σ !! c' = Some ch' ∧ Channel.has_room ch') →
  chans σ !! c = Some ch →
  Channel.closed ch = true →
  ∃ σ',
    run (replicate (S (length pre)) (Run tid)) σ
    = Some (σ', ((λ c', OSend tid c' p) <$> pre)
                ++ [ORaise tid BrokenResourceError])
    ∧ pc_at σ' tid = Some (Raised BrokenResourceError)
    ∧ step (Run tid) σ' = None
    ∧ _lock (event σ') = None
    ∧ _channels (event σ') = _channels (event σ)
    ∧ (∀ c' ch', c' ∈ pre → chans σ !! c' = Some ch' →
         chans σ' !! c' = Some (Channel.push p ch'))
    ∧ (∀ c', c' ∉ pre → chans σ' !! c' = chans σ !! c').
Proof.
  intros Ht Hpc Hcan Hnd Hroom Hch Hclosed.
  apply NoDup_app in Hnd as (Hndpre & Hdisj & _).
  destruct (trigger_loop tid p pre σ t (c :: rest))
    as (σ1 & Hrun & Htasks & Hev & Hpre & Hother); try done.
  assert (Hc : c ∉ pre). { intros Hin. eapply Hdisj; [done|by left]. }
  set (t1 := {| cancelled := false; at_pc := TIterate p (c :: rest) |}).
  set (σ' := goto tid t1 (Raised BrokenResourceError) (set_lock None σ1)).
  assert (Hs : step (Run tid) σ1
               = Some (σ', [ORaise tid BrokenResourceError])).
  { cbn. rewrite Htasks, lookup_insert_eq. cbn. unfold trigger. cbn.
    rewrite (Hother c Hc), Hch. unfold Channel.send_nowait.
    by rewrite Hclosed. }
  exists σ'. split.
  { replace (S (length pre)) with (length pre + 1) by lia.
    rewrite replicate_add. apply run_app.
    exists σ1, ((λ c', OSend tid c' p) <$> pre),
      [ORaise tid BrokenResourceError].
    split; [done|]. split; [|done]. cbn [replicate]. apply run_cons.
    by exists σ', [ORaise tid BrokenResourceError], []. }
  split; [unfold pc_at; cbn; by rewrite lookup_insert_eq|].
  split; [cbn; by rewrite lookup_insert_eq|].
  split; [done|]. split; [cbn; by rewrite Hev|].
  split; [exact Hpre|exact Hother].
Qed.

(** Leaving the block of a subscription whose cancel scope is cancelled:
    the receive handle is closed, but the checkpoint of the lock raises
    [Cancelled] before line 68 is reached.  The call ends with the send
    handle still in [_channels]. *)
Lemma subscribe_exit_cancelled σ tid t c e ch :
  tasks σ !! tid = Some t →
  at_pc t = SYielded c →
  cancelled t = true →
  chans σ !! c = Some ch →
  ∃ σ',
    run [Exit tid e; Run tid; Run tid] σ
    = Some (σ', [OClose tid c; ORaise tid Cancelled])
    ∧ pc_at σ' tid = Some (Raised Cancelled)
    ∧ step (Run tid) σ' = None
    ∧ event σ' = event σ
    ∧ chans σ' = <[c := Channel.close ch]> (chans σ).
Proof.
  intros Ht Hpc Hcan Hch. eexists. split.
  { do 4 (cbn; rewrite ?Ht, ?Hpc, ?lookup_insert_eq, ?Hch, ?Hcan).
    reflexivity. }
  split; [unfold pc_at; cbn; by rewrite lookup_insert_eq|].
  split; [cbn; by rewrite lookup_insert_eq|]. done.
Qed.

(** Leaving the block of a subscription that is not cancelled, while the lock
    is free: the handle is closed and the send handle is removed. *)
Lemma subscribe_exit_normal σ tid t c e ch :
  tasks σ !! tid = Some t →
  at_pc t = SYielded c →
  cancelled t = false →
  chans σ !! c = Some ch →
  c ∈ _channels (event σ) →
  _lock (event σ) = None →
  ∃ σ',
    run [Exit tid e; Run tid; Run tid; Run tid] σ
    = Some (σ', [OClose tid c; OUnregister tid c]
                ++ match e with None => [] | Some x => [ORaise tid x] end)
    ∧ pc_at σ' tid
      = Some (match e with None => Returned | Some x => Raised x end)
    ∧ _lock (event σ') = None
    ∧ _channels (event σ') = _channels (event σ) ∖ {[c]}
    ∧ chans σ' = <[c := Channel.close ch]> (chans σ).
Proof.
  intros Ht Hpc Hcan Hch Hin Hlock. eexists. split.
  { do 7 (cbn; rewrite ?Ht, ?Hpc, ?lookup_insert_eq, ?Hch, ?Hcan, ?Hlock).
    rewrite decide_True by done. cbn. rewrite app_nil_r. reflexivity. }
  split; [unfold pc_at; cbn; by rewrite lookup_insert_eq|]. done.
Qed.

(** C10: a step of the subscription of task [tid] (entering [subscribe],
    any step of its code, leaving the block) leaves every other task where it
    is, and for every other subscription it leaves the membership of its send
    handle in [_channels] and the state of its channel as they were. *)
Theorem subscription_frame n acts0 σ os0 a tid σ' os :
  run acts0 (init n) = Some (σ, os0) →
  subscription_step σ a = Some tid →
  step a σ = Some (σ', os) →
  ∀ tid' t' c', tid' ≠ tid →
    tasks σ !! tid' = Some t' →
    channel_of (at_pc t') = Some c' →
    tasks σ' !! tid' = Some t'
    ∧ (c' ∈ _channels (event σ') ↔ c' ∈ _channels (event σ))
    ∧ chans σ' !! c' = chans σ !! c'.
Proof.
  intros Hreach Hsub H tid' t' c' Hne Ht' Hc'.
  pose proof (Inv_reachable _ _ _ _ Hreach) as [_ _ _ _ Hown Hdist _ _ _].
  assert (Hfresh : c' ≠ fresh (dom (chans σ))).
  { intros ->. eapply (is_fresh (dom (chans σ))), elem_of_dom, Hown; eauto. }
  assert (Hmine : ∀ t c, tasks σ !! tid = Some t →
                         channel_of (at_pc t) = Some c → c' ≠ c).
  { intros t c Ht Hc ->. apply Hne. by eapply Hdist. }
  step_inv H; unfold subscription_step, pc_at in Hsub; cbn in *.
  all: try (rewrite H0 in Hsub; cbn in Hsub; rewrite H1 in Hsub).
  all: simplify_eq.
  all: try match goal with
         | Ht : tasks _ !! _ = Some ?t, Hp : at_pc ?t = _ |- _ =>
             assert (∃ c, channel_of (at_pc t) = Some c ∧ c' ≠ c)
               as (c0 & Hc0 & Hne0)
               by (rewrite Hp; cbn; eexists; split; [reflexivity|];
                   eapply (Hmine t); [exact Ht|by rewrite Hp]);
             rewrite Hp in Hc0; cbn in Hc0; simplify_eq
         end.
  all: rewrite ?lookup_insert_ne by done.
  all: split; [done|]; split.
  all: rewrite ?elem_of_union, ?elem_of_difference, ?elem_of_singleton.
  all: try (rewrite lookup_insert_ne by done).
  all: try done.
  all: intuition.
Qed.

(** What a step can do to the content of a queue: nothing, put one payload
    at its tail, hand its head to [receive()], or close the handle. *)
Lemma step_data a σ σ' os c ch ch' :
  step a σ = Some (σ', os) →
  chans σ !! c = Some ch →
  chans σ' !! c = Some ch' →
  ch' = ch
  ∨ (∃ tid p, os = [OSend tid c p] ∧ ch' = Channel.push p ch ∧ Channel.has_room ch)
  ∨ (∃ tid v, os = [OReceive tid c v]
              ∧ Channel.data ch = v :: Channel.data ch'
              ∧ Channel.closed ch' = false)
  ∨ (∃ tid, os = [OClose tid c] ∧ ch' = Channel.close ch).
Proof.
  intros H Hch Hch'. step_inv H; cbn in *; simplify_eq.
  all: try by left.
  all: apply lookup_insert_Some in Hch' as [[? ?]|[? Hch']]; simplify_eq.
  all: try by left.
  - right. left. eexists _, _. split; [done|]. split.
    + unfold Channel.push. by rewrite H.
    + by split.
  - exfalso. apply (is_fresh (dom (chans σ))). apply elem_of_dom. eauto.
  - right. right. right. by eexists.
  - right. right. right. by eexists.
  - right. right. left. eexists _, _. split; [done|]. cbn. by rewrite H5.
Qed.

Lemma trigger_blocked σ tid t p c rest ch :
  tasks σ !! tid = Some t →
  at_pc t = TIterate p (c :: rest) →
  cancelled t = false →
  chans σ !! c = Some ch →
  Channel.closed ch = false →
  Channel.max_buffer_size ch ≤ length (Channel.data ch) →
  step (Run tid) σ = None.
Proof.
  intros Ht Hpc Hcan Hch Hopen Hfull. cbn. rewrite Ht, Hpc. unfold trigger.
  rewrite Hpc, Hcan, Hch. unfold Channel.send_nowait. rewrite Hopen.
  rewrite decide_False; [done|lia].
Qed.

(** Before a queue that is open and full a [trigger] cannot take a step, and
    one step of any task leaves it so unless it cancels the call, receives
    from the queue or closes its handle. *)
Lemma full_queue_suspends_trigger n acts0 σ os0 tid t p c rest ch :
  run acts0 (init n) = Some (σ, os0) →
  tasks σ !! tid = Some t →
  at_pc t = TIterate p (c :: rest) →
  cancelled t = false →
  chans σ !! c = Some ch →
  Channel.closed ch = false →
  length (Channel.data ch) = capacity →
  (∀ c0 ch0, chans σ !! c0 = Some ch0 →
     Channel.max_buffer_size ch0 = 256 ∧ length (Channel.data ch0) ≤ 256)
  ∧ step (Run tid) σ = None
  ∧ (∀ a σ' os, step a σ = Some (σ', os) →
       pc_at σ' tid = Some (TIterate p (c :: rest))
       ∧ (step (Run tid) σ' = None
          ∨ a = Cancel tid
          ∨ (∃ tid' v, os = [OReceive tid' c v])
          ∨ (∃ tid', os = [OClose tid' c])))
  ∧ (∀ tid' v σ',
       step (Receive tid') σ = Some (σ', [OReceive tid' c v]) →
       ∃ l σ'', Channel.data ch = v :: l
         ∧ step (Run tid) σ' = Some (σ'', [OSend tid c p])
         ∧ Channel.data <$> chans σ'' !! c = Some (l ++ [p]))
  ∧ (∀ a σ' os c0 ch0 ch0',
       step a σ = Some (σ', os) →
       chans σ !! c0 = Some ch0 → chans σ' !! c0 = Some ch0' →
       Channel.data ch0' = Channel.data ch0
       ∨ (∃ p', Channel.data ch0' = Channel.data ch0 ++ [p'])
       ∨ (∃ tid' v, os = [OReceive tid' c0 v]
                    ∧ Channel.data ch0 = v :: Channel.data ch0')
       ∨ (∃ tid', os = [OClose tid' c0])).
Proof.
  intros Hreach Ht Hpc Hcan Hch Hopen Hfull.
  pose proof (Inv_reachable _ _ _ _ Hreach) as HI.
  destruct (inv_capacity _ HI c ch Hch) as [Hmax _].
  assert (Hblocked : step (Run tid) σ = None).
  { eapply trigger_blocked; eauto. lia. }
  split; [exact (inv_capacity _ HI)|]. split; [exact Hblocked|].
  split; [|split].
  - intros a σ' os H.
    assert (Ha : a ≠ Run tid) by (intros ->; congruence).
    assert (Htid : ∀ tid0 t0, tasks σ !! tid0 = Some t0 →
                     holds_lock (at_pc t0) = true → tid0 = tid).
    { intros tid0 t0 Ht0 Hh.
      pose proof (proj1 (inv_lock _ HI tid0 t0 Ht0) Hh) as Hl0.
      pose proof (proj1 (inv_lock _ HI tid t Ht)) as Hl. rewrite Hpc in Hl.
      specialize (Hl eq_refl). congruence. }
    assert (Hc : c ≠ fresh (dom (chans σ))).
    { intros Hc. apply (is_fresh (dom (chans σ))). rewrite <-Hc.
      apply elem_of_dom. eauto. }
    step_inv H.
    all: try match goal with
           | |- context [goto ?x _ _ _] =>
               destruct (decide (x = tid)) as [->|Hne]
           | |- context [set_task ?x _ _] =>
               destruct (decide (x = tid)) as [->|Hne]
           end.
    all: simplify_eq.
    all: try (rewrite Hpc in *; simplify_eq).
    all: try (split; [unfold pc_at; cbn;
                      rewrite ?lookup_insert_eq, ?lookup_insert_ne, ?Ht by done;
                      cbn; by rewrite ?Hpc|]).
    all: try (by right; left).
    all: try (left; eapply trigger_blocked;
              [cbn; rewrite ?lookup_insert_ne by done; exact Ht
              |exact Hpc|exact Hcan|cbn; exact Hch|exact Hopen|lia]).
    + exfalso. apply Hne, (Htid tid0 t0 H0). by rewrite H1.
    + left. eapply trigger_blocked;
        [cbn; rewrite lookup_insert_ne by done; exact Ht
        |exact Hpc|exact Hcan
        |cbn; rewrite lookup_insert_ne by done; exact Hch|exact Hopen|lia].
    + destruct (decide (c0 = c)) as [->|Hcc].
      { right. right. right. by eexists. }
      left. eapply trigger_blocked;
        [cbn; rewrite lookup_insert_ne by done; exact Ht
        |exact Hpc|exact Hcan
        |cbn; rewrite lookup_insert_ne by done; exact Hch|exact Hopen|lia].
    + destruct (decide (c0 = c)) as [->|Hcc].
      { right. right. right. by eexists. }
      left. eapply trigger_blocked;
        [cbn; rewrite lookup_insert_ne by done; exact Ht
        |exact Hpc|exact Hcan
        |cbn; rewrite lookup_insert_ne by done; exact Hch|exact Hopen|lia].
    + destruct (decide (c0 = c)) as [->|Hcc].
      { right. right. left. by eexists _, _. }
      left. eapply trigger_blocked;
        [cbn; exact Ht
        |exact Hpc|exact Hcan
        |cbn; rewrite lookup_insert_ne by done; exact Hch|exact Hopen|lia].
  - intros tid' v σ' H. step_inv H.
    eexists _, _. split; [done|]. split.
    + cbn. rewrite Ht, Hpc. unfold trigger. rewrite Hpc, Hcan. cbn.
      rewrite lookup_insert_eq. unfold Channel.send_nowait. cbn.
      rewrite decide_True; [reflexivity|].
      rewrite Hmax. cbn in Hfull. lia.
    + cbn. by rewrite lookup_insert_eq.
  - intros a σ' os c0 ch0 ch0' H Hch0 Hch0'.
    destruct (step_data a σ σ' os c0 ch0 ch0' H Hch0 Hch0')
      as [->|[(tid' & p' & -> & -> & _)|[(tid' & v & -> & Hd & _)
                                         |(tid' & -> & _)]]].
    + by left.
    + right. left. by eexists.
    + right. right. left. by eexists _, _.
    + right. right. right. by eexists.
Qed.

(** *** The order of deliveries *)

Lemma sent_app c os1 os2 : sent c (os1 ++ os2) = sent c os1 ++ sent c os2.
Proof. apply omap_app. Qed.

Lemma received_app c os1 os2 :
  received c (os1 ++ os2) = received c os1 ++ received c os2.
Proof. apply omap_app. Qed.

Lemma acquired_app os1 os2 :
  acquired (os1 ++ os2) = acquired os1 ++ acquired os2.
Proof. apply omap_app. Qed.

Lemma reached_app c os1 os2 tid :
  reached c (os1 ++ os2) tid = reached c os1 tid || reached c os2 tid.
Proof. apply existsb_app. Qed.

Lemma returned_app os1 os2 tid :
  returned (os1 ++ os2) tid = returned os1 tid || returned os2 tid.
Proof. apply existsb_app. Qed.

(** At a moment when the lock is free, the window that opens there holds no
    observation yet. *)
Lemma Window_start σ c ch :
  Inv σ → _lock (event σ) = None → chans σ !! c = Some ch →
  Window c (Channel.data ch) σ [].
Proof.
  intros HI Hlock Hch. split; cbn.
  - exists ch. by rewrite app_nil_r.
  - done.
  - constructor.
  - by intros tid p ?%elem_of_nil.
  - intros tid t p it Ht Hpc. exfalso.
    pose proof (proj1 (inv_lock _ HI tid t Ht)) as Hl. rewrite Hpc in Hl.
    specialize (Hl eq_refl). congruence.
  - done.
  - done.
  - done.
Qed.

Ltac split_actor tid :=
  match goal with
  | |- context [<[?x := _]> _ !! tid] =>
      destruct (decide (x = tid)) as [->|?];
      [rewrite lookup_insert_eq | rewrite lookup_insert_ne by done]
  end.

(** A call that has got the lock stays in [trigger] or has left it. *)
Lemma step_after_acquire a σ σ' o tid t p :
  step a σ = Some (σ', o) →
  tasks σ !! tid = Some t → after_acquire p (at_pc t) →
  ∃ t', tasks σ' !! tid = Some t' ∧ after_acquire p (at_pc t').
Proof.
  intros H Ht Ha. step_inv H; cbn.
  all: try split_actor tid; simplify_eq.
  all: try (eexists; split; [done|]; cbn; try done).
  all: rewrite_pc; cbn in *; try done.
Qed.

(** A call that has returned stays so. *)
Lemma step_returned a σ σ' o tid :
  step a σ = Some (σ', o) →
  pc_at σ tid = Some Returned → pc_at σ' tid = Some Returned.
Proof.
  unfold pc_at. intros H Hr.
  destruct (tasks σ !! tid) as [t|] eqn:Ht; [|done]. cbn in Hr.
  step_inv H; cbn.
  all: try split_actor tid; simplify_eq.
  all: rewrite ?Ht; cbn; try done.
  all: rewrite_pc; simplify_eq.
  all: done.
Qed.

(** The four kinds of steps, told apart by what they let an observer see:
    a trigger call gets the lock, puts its payload into a channel, returns;
    or the step is none of these. *)
Lemma step_kind a σ σ' o :
  step a σ = Some (σ', o) →
  (∃ tid t p, o = [OAcquire tid p]
     ∧ tasks σ !! tid = Some t ∧ at_pc t = TAcquire p
     ∧ _lock (event σ) = None
     ∧ tasks σ' = <[tid := {| cancelled := cancelled t;
                              at_pc := TIterate p (set_iter (_channels (event σ))) |}]>
                    (tasks σ))
  ∨ (∃ tid t p c rest, o = [OSend tid c p]
     ∧ tasks σ !! tid = Some t ∧ at_pc t = TIterate p (c :: rest)
     ∧ tasks σ' = <[tid := {| cancelled := cancelled t;
                              at_pc := TIterate p rest |}]> (tasks σ))
  ∨ (∃ tid t p, o = [OReturn tid]
     ∧ tasks σ !! tid = Some t ∧ at_pc t = TIterate p []
     ∧ tasks σ' = <[tid := {| cancelled := cancelled t;
                              at_pc := Returned |}]> (tasks σ))
  ∨ (acquired o = []
     ∧ (∀ c, sent c o = [])
     ∧ (∀ c tid, reached c o tid = false)
     ∧ (∀ tid, returned o tid = false)
     ∧ ∀ tid t p it, tasks σ' !! tid = Some t → at_pc t = TIterate p it →
         ∃ t1, tasks σ !! tid = Some t1 ∧ at_pc t1 = TIterate p it).
Proof.
  intros H. step_inv H.
  all: try (left; by eexists _, _, _).
  all: try (right; left; by eexists _, _, _, _, _).
  all: try (right; right; left; by eexists _, _, _).
  all: right; right; right.
  all: do 4 (split; [done|]).
  all: intros tid' t' p' it' Ht' Hpc'; cbn in Ht'.
  all: try (apply lookup_insert_Some in Ht' as [[? ?]|[? Ht']]; simplify_eq/=).
  all: eauto.
Qed.

(** What one step does to the queue of an open channel, in terms of what
    the step lets an observer see. *)
Lemma step_queue a σ σ' o c ch ch' :
  step a σ = Some (σ', o) →
  chans σ !! c = Some ch → chans σ' !! c = Some ch' →
  Channel.closed ch' = false →
  Channel.data ch ++ sent c o = received c o ++ Channel.data ch'.
Proof.
  intros H Hch Hch' Hopen. step_inv H; cbn in *; simplify_eq.
  all: try (apply lookup_insert_Some in Hch' as [[? ?]|[? Hch']]; simplify_eq).
  all: cbn; rewrite ?decide_True, ?decide_False by done; cbn.
  all: rewrite ?app_nil_r; try done.
  exfalso. apply (is_fresh (dom (chans σ))). apply elem_of_dom. eauto.
Qed.

Lemma lock_unique σ x y tx ty :
  Inv σ → tasks σ !! x = Some tx → tasks σ !! y = Some ty →
  holds_lock (at_pc tx) = true → holds_lock (at_pc ty) = true → x = y.
Proof.
  intros HI Hx Hy Hhx Hhy.
  apply (inv_lock _ HI x tx Hx) in Hhx. apply (inv_lock _ HI y ty Hy) in Hhy.
  congruence.
Qed.

Lemma elem_of_acquired_fst os tid :
  tid ∈ (acquired os).*1 ↔ ∃ p : T, (tid, p) ∈ acquired os.
Proof.
  rewrite list_elem_of_fmap. split.
  - intros ([tid' p] & -> & Hin). by exists p.
  - intros (p & Hin). by exists (tid, p).
Qed.

Lemma Window_acquire c d0 sub σ1 σ os1 tid t p :
  Inv σ1 → Window c d0 σ1 os1 →
  pc_at σ1 sub = Some (SYielded c) →
  tasks σ1 !! tid = Some t → at_pc t = TAcquire p →
  _lock (event σ1) = None →
  tasks σ = <[tid := {| cancelled := cancelled t;
                        at_pc := TIterate p (set_iter (_channels (event σ1))) |}]>
              (tasks σ1) →
  (∃ ch, chans σ !! c = Some ch
     ∧ d0 ++ sent c (os1 ++ [OAcquire tid p])
       = received c (os1 ++ [OAcquire tid p]) ++ Channel.data ch) →
  Window c d0 σ (os1 ++ [OAcquire tid p]).
Proof.
  intros HI [_ Hord Hnd Hpcs Hfl Hre Hret Hcom] Hsub Ht Hpc Hlock Htasks Hfifo.
  assert (Hnew : tid ∉ (acquired os1).*1).
  { intros (p' & Hin)%elem_of_acquired_fst.
    destruct (Hpcs _ _ Hin) as (t' & Ht' & Ha). simplify_eq.
    by rewrite Hpc in Ha. }
  assert (Hnr : reached c os1 tid = false).
  { destruct (reached c os1 tid) eqn:E; [|done]. by apply Hre in E. }
  assert (Hnret : returned os1 tid = false).
  { destruct (returned os1 tid) eqn:E; [|done]. apply Hret in E.
    unfold pc_at in E. rewrite Ht in E. cbn in E. congruence. }
  assert (Hreach : ∀ x, reached c (os1 ++ [OAcquire tid p]) x = reached c os1 x).
  { intros x. rewrite reached_app. cbn. by rewrite orb_false_r. }
  assert (Hreturn : ∀ x, returned (os1 ++ [OAcquire tid p]) x = returned os1 x).
  { intros x. rewrite returned_app. cbn. by rewrite orb_false_r. }
  assert (Hcin : c ∈ _channels (event σ1)).
  { unfold pc_at in Hsub. destruct (tasks σ1 !! sub) as [ts|] eqn:Hts; [|done].
    cbn in Hsub. eapply (inv_registered _ HI); [exact Hts|].
    simplify_eq. by rewrite Hsub. }
  split.
  - exact Hfifo.
  - rewrite sent_app, acquired_app, filter_app.
    change (sent c [OAcquire tid p]) with (@nil T).
    change (acquired [OAcquire tid p]) with [(tid, p)].
    rewrite app_nil_r, fmap_app.
    rewrite !(list_filter_iff _ (λ e, reached c os1 e.1)) by
      (intros e; by rewrite Hreach).
    rewrite <-Hord.
    rewrite filter_cons_False, filter_nil; [by rewrite app_nil_r|].
    cbn [fst]. rewrite Hreach, Hnr. exact id.
  - rewrite acquired_app, fmap_app. cbn. apply NoDup_app.
    split; [done|]. split; [|apply NoDup_singleton].
    intros x Hx ->%list_elem_of_singleton. done.
  - intros x q. rewrite acquired_app. cbn.
    intros [Hin|Hin%list_elem_of_singleton]%elem_of_app.
    + destruct (Hpcs _ _ Hin) as (t' & Ht' & Ha). rewrite Htasks.
      destruct (decide (tid = x)) as [->|Hne].
      * simplify_eq. by rewrite Hpc in Ha.
      * rewrite lookup_insert_ne by done. eauto.
    + simplify_eq. rewrite Htasks, lookup_insert_eq. eexists. split; [done|].
      done.
  - intros x tx q it Hx Hpcx. rewrite Htasks in Hx.
    apply lookup_insert_Some in Hx as [[-> <-]|[Hne Hx]].
    + cbn in Hpcx. simplify_eq. split.
      * rewrite acquired_app. cbn. eauto.
      * rewrite Hreach, Hnr. split; [done|]. intros _.
        by apply elem_of_set_iter.
    + exfalso.
      pose proof (proj1 (inv_lock _ HI x tx Hx)) as Hl. rewrite Hpcx in Hl.
      specialize (Hl eq_refl). congruence.
  - intros x. rewrite Hreach, acquired_app, fmap_app. intros Hx%Hre.
    apply elem_of_app. by left.
  - intros x. rewrite Hreturn. intros Hx. pose proof (Hret _ Hx) as Hp.
    unfold pc_at in *. rewrite Htasks.
    destruct (decide (tid = x)) as [->|Hne].
    + rewrite Ht in Hp. cbn in Hp. congruence.
    + by rewrite lookup_insert_ne.
  - intros x. rewrite Hreturn, Hreach, acquired_app, fmap_app. cbn.
    intros [Hin|Hin%list_elem_of_singleton]%elem_of_app Hr.
    + by apply Hcom.
    + subst. congruence.
Qed.

Lemma filter_ext_elem {A} (P Q : A → Prop)
    `{!∀ x, Decision (P x), !∀ x, Decision (Q x)} (l : list A) :
  (∀ x, x ∈ l → (P x ↔ Q x)) → filter P l = filter Q l.
Proof.
  induction l as [|x l IH]; intros Hext; [done|].
  rewrite !filter_cons. rewrite IH by (intros y Hy; apply Hext; by right).
  destruct (decide (P x)) as [HP|HP], (decide (Q x)) as [HQ|HQ]; try done.
  - exfalso. apply HQ, (Hext x); [by left|done].
  - exfalso. apply HP, (Hext x); [by left|done].
Qed.

Lemma sent_send c tid c' (p : T) :
  sent c [OSend tid c' p] = if decide (c' = c) then [p] else [].
Proof. unfold sent. cbn. by destruct (decide (c' = c)). Qed.

Lemma Window_send c d0 σ1 σ os1 tid t p c' rest :
  Inv σ1 → Window c d0 σ1 os1 →
  tasks σ1 !! tid = Some t → at_pc t = TIterate p (c' :: rest) →
  tasks σ = <[tid := {| cancelled := cancelled t;
                        at_pc := TIterate p rest |}]> (tasks σ1) →
  (∃ ch, chans σ !! c = Some ch
     ∧ d0 ++ sent c (os1 ++ [OSend tid c' p])
       = received c (os1 ++ [OSend tid c' p]) ++ Channel.data ch) →
  Window c d0 σ (os1 ++ [OSend tid c' p]).
Proof.
  intros HI [_ Hord Hnd Hpcs Hfl Hre Hret Hcom] Ht Hpc Htasks Hfifo.
  destruct (Hfl _ _ _ _ Ht Hpc) as [[acq Hacq] Hin].
  destruct (inv_iter _ HI _ _ _ _ Ht Hpc) as [[Hc' Hndr]%NoDup_cons _].
  assert (Hacq' : acquired (os1 ++ [OSend tid c' p]) = acquired os1).
  { rewrite acquired_app. change (acquired [OSend tid c' p]) with (@nil (nat * T)).
    by rewrite app_nil_r. }
  assert (Hreturn : ∀ x, returned (os1 ++ [OSend tid c' p]) x = returned os1 x).
  { intros x. rewrite returned_app. cbn. by rewrite orb_false_r. }
  assert (Hreach : ∀ x, reached c (os1 ++ [OSend tid c' p]) x
                        = reached c os1 x || bool_decide (tid = x ∧ c' = c)).
  { intros x. rewrite reached_app. cbn. by rewrite orb_false_r. }
  assert (Htid : tid ∉ acq.*1).
  { rewrite Hacq, fmap_app in Hnd. apply NoDup_app in Hnd as (_ & Hd & _).
    intros Hx. apply (Hd _ Hx). cbn. by left. }
  split.
  - exact Hfifo.
  - rewrite Hacq', sent_app. destruct (decide (c' = c)) as [->|Hne].
    + assert (Hnr : reached c os1 tid = false) by (apply Hin; by left).
      rewrite sent_send, decide_True by done.
      rewrite Hord, Hacq, !filter_app, !fmap_app.
      rewrite (filter_ext_elem (λ e, reached c (os1 ++ [OSend tid c p]) e.1)
                 (λ e, reached c os1 e.1) acq).
      2:{ intros [x q] Hx. cbn [fst]. rewrite Hreach.
          rewrite bool_decide_eq_false_2; [by rewrite orb_false_r|].
          intros [<- _]. apply Htid. by apply (list_elem_of_fmap_2 fst) in Hx. }
      rewrite (filter_singleton_False (λ e, reached c os1 e.1)); [|done|].
      2:{ cbn [fst]. rewrite Hnr. exact id. }
      rewrite filter_singleton_True; [|done|].
      2:{ cbn [fst]. rewrite Hreach, Hnr. rewrite bool_decide_eq_true_2; done. }
      by rewrite app_nil_r.
    + rewrite sent_send, decide_False, app_nil_r by done. rewrite Hord.
      f_equal. apply list_filter_iff. intros e. rewrite Hreach.
      rewrite bool_decide_eq_false_2; [by rewrite orb_false_r|].
      by intros [_ ?].
  - by rewrite Hacq'.
  - intros x q. rewrite Hacq'. intros Hx.
    destruct (Hpcs _ _ Hx) as (t' & Ht' & Ha). rewrite Htasks.
    destruct (decide (tid = x)) as [->|Hne].
    + simplify_eq. rewrite Hpc in Ha. rewrite lookup_insert_eq.
      eexists. split; [done|]. done.
    + rewrite lookup_insert_ne by done. eauto.
  - intros x tx q it Hx Hpcx. rewrite Htasks in Hx.
    apply lookup_insert_Some in Hx as [[-> <-]|[Hne Hx]].
    + cbn in Hpcx. simplify_eq. rewrite Hacq'. split; [eauto|].
      rewrite Hreach. destruct (decide (c' = c)) as [->|Hne].
      * rewrite bool_decide_eq_true_2, orb_true_r by done. split; [done|].
        done.
      * rewrite bool_decide_eq_false_2, orb_false_r by (by intros [_ ?]).
        rewrite <-Hin. rewrite elem_of_cons. intuition congruence.
    + exfalso. apply Hne. eapply (lock_unique σ1); eauto.
      * by rewrite Hpc.
      * by rewrite Hpcx.
  - intros x. rewrite Hreach, Hacq'.
    intros [Hx|[<- _]%bool_decide_eq_true]%orb_true_iff; [by apply Hre|].
    rewrite Hacq, fmap_app. apply elem_of_app. right. cbn. by left.
  - intros x. rewrite Hreturn. intros Hx. pose proof (Hret _ Hx) as Hp.
    unfold pc_at in *. rewrite Htasks.
    destruct (decide (tid = x)) as [->|Hne].
    + rewrite Ht in Hp. cbn in Hp. congruence.
    + by rewrite lookup_insert_ne.
  - intros x. rewrite Hreturn, Hreach, Hacq'. intros Hx Hr.
    by rewrite (Hcom _ Hx Hr).
Qed.

Lemma Window_return c d0 σ1 σ os1 tid t p :
  Inv σ1 → Window c d0 σ1 os1 →
  tasks σ1 !! tid = Some t → at_pc t = TIterate p [] →
  tasks σ = <[tid := {| cancelled := cancelled t; at_pc := Returned |}]>
              (tasks σ1) →
  (∃ ch, chans σ !! c = Some ch
     ∧ d0 ++ sent c (os1 ++ [OReturn tid])
       = received c (os1 ++ [OReturn tid]) ++ Channel.data ch) →
  Window c d0 σ (os1 ++ [OReturn tid]).
Proof.
  intros HI [_ Hord Hnd Hpcs Hfl Hre Hret Hcom] Ht Hpc Htasks Hfifo.
  destruct (Hfl _ _ _ _ Ht Hpc) as [[acq Hacq] Hin].
  assert (Hdone : reached c os1 tid = true).
  { destruct (reached c os1 tid); [done|].
    destruct Hin as [_ Hin]. specialize (Hin eq_refl).
    by apply elem_of_nil in Hin. }
  assert (Hacq' : acquired (os1 ++ [OReturn tid]) = acquired os1).
  { rewrite acquired_app. change (acquired [OReturn tid]) with (@nil (nat * T)).
    by rewrite app_nil_r. }
  assert (Hsent : sent c (os1 ++ [OReturn tid]) = sent c os1).
  { rewrite sent_app. change (sent c [OReturn tid]) with (@nil T).
    by rewrite app_nil_r. }
  assert (Hreach : ∀ x, reached c (os1 ++ [OReturn tid]) x = reached c os1 x).
  { intros x. rewrite reached_app. cbn. by rewrite orb_false_r. }
  assert (Hreturn : ∀ x, returned (os1 ++ [OReturn tid]) x
                         = returned os1 x || bool_decide (tid = x)).
  { intros x. rewrite returned_app. cbn. by rewrite orb_false_r. }
  split.
  - exact Hfifo.
  - rewrite Hacq', Hsent, Hord. f_equal. apply list_filter_iff.
    intros e. by rewrite Hreach.
  - by rewrite Hacq'.
  - intros x q. rewrite Hacq'. intros Hx.
    destruct (Hpcs _ _ Hx) as (t' & Ht' & Ha). rewrite Htasks.
    destruct (decide (tid = x)) as [->|Hne].
    + rewrite lookup_insert_eq. eexists. split; [done|]. done.
    + rewrite lookup_insert_ne by done. eauto.
  - intros x tx q it Hx Hpcx. rewrite Htasks in Hx.
    apply lookup_insert_Some in Hx as [[-> <-]|[Hne Hx]]; [done|].
    exfalso. apply Hne. eapply (lock_unique σ1); eauto.
    + by rewrite Hpc.
    + by rewrite Hpcx.
  - intros x. rewrite Hreach, Hacq'. apply Hre.
  - intros x. rewrite Hreturn. unfold pc_at. rewrite Htasks.
    intros [Hx|<-%bool_decide_eq_true]%orb_true_iff.
    + pose proof (Hret _ Hx) as Hp. unfold pc_at in Hp.
      destruct (decide (tid = x)) as [->|Hne].
      * by rewrite lookup_insert_eq.
      * by rewrite lookup_insert_ne.
    + by rewrite lookup_insert_eq.
  - intros x. rewrite Hreturn, Hreach, Hacq'.
    intros Hx [Hr|<-%bool_decide_eq_true]%orb_true_iff; [by apply Hcom|done].
Qed.

Lemma Window_other c d0 a σ1 σ os1 o :
  Window c d0 σ1 os1 →
  step a σ1 = Some (σ, o) →
  acquired o = [] →
  (∀ c, sent c o = []) →
  (∀ c tid, reached c o tid = false) →
  (∀ tid, returned o tid = false) →
  (∀ tid t p it, tasks σ !! tid = Some t → at_pc t = TIterate p it →
     ∃ t1, tasks σ1 !! tid = Some t1 ∧ at_pc t1 = TIterate p it) →
  (∃ ch, chans σ !! c = Some ch
     ∧ d0 ++ sent c (os1 ++ o) = received c (os1 ++ o) ++ Channel.data ch) →
  Window c d0 σ (os1 ++ o).
Proof.
  intros [_ Hord Hnd Hpcs Hfl Hre Hret Hcom] Hstep Ha Hs Hr Hrt Hsame Hfifo.
  assert (Hacq' : acquired (os1 ++ o) = acquired os1).
  { by rewrite acquired_app, Ha, app_nil_r. }
  assert (Hsent : sent c (os1 ++ o) = sent c os1).
  { by rewrite sent_app, Hs, app_nil_r. }
  assert (Hreach : ∀ x, reached c (os1 ++ o) x = reached c os1 x).
  { intros x. by rewrite reached_app, Hr, orb_false_r. }
  assert (Hreturn : ∀ x, returned (os1 ++ o) x = returned os1 x).
  { intros x. by rewrite returned_app, Hrt, orb_false_r. }
  split.
  - exact Hfifo.
  - rewrite Hacq', Hsent, Hord. f_equal. apply list_filter_iff.
    intros e. by rewrite Hreach.
  - by rewrite Hacq'.
  - intros x q. rewrite Hacq'. intros Hx.
    destruct (Hpcs _ _ Hx) as (t' & Ht' & Hafter).
    by eapply step_after_acquire.
  - intros x tx q it Hx Hpcx. rewrite Hacq', Hreach.
    destruct (Hsame _ _ _ _ Hx Hpcx) as (t1 & Ht1 & Hpc1). by eapply Hfl.
  - intros x. rewrite Hreach, Hacq'. apply Hre.
  - intros x. rewrite Hreturn. intros Hx. eapply step_returned; [done|].
    by apply Hret.
  - intros x. rewrite Hreturn, Hreach, Hacq'. apply Hcom.
Qed.

(** Every step keeps the window, as long as the subscriber stays in its
    block. *)
Lemma Window_step c d0 sub a σ1 σ os1 o :
  Inv σ1 → Window c d0 σ1 os1 →
  step a σ1 = Some (σ, o) →
  pc_at σ1 sub = Some (SYielded c) →
  pc_at σ sub = Some (SYielded c) →
  Window c d0 σ (os1 ++ o).
Proof.
  intros HI HW Hstep Hsub1 Hsub.
  pose proof (Inv_step _ _ _ _ HI Hstep) as HI'.
  assert (Hfifo : ∃ ch, chans σ !! c = Some ch
     ∧ d0 ++ sent c (os1 ++ o) = received c (os1 ++ o) ++ Channel.data ch).
  { destruct (w_fifo _ _ _ _ HW) as (ch1 & Hch1 & Hq).
    unfold pc_at in Hsub.
    destruct (tasks σ !! sub) as [ts|] eqn:Hts; [|done]. cbn in Hsub.
    simplify_eq.
    destruct (inv_own _ HI' sub ts c Hts) as [ch Hch]; [by rewrite Hsub|].
    exists ch. split; [done|].
    assert (Hopen : Channel.closed ch = false).
    { eapply (inv_open _ HI'); [exact Hts| |exact Hch]. by rewrite Hsub. }
    rewrite sent_app, received_app, app_assoc, Hq, <-!app_assoc. f_equal.
    by eapply step_queue. }
  destruct (step_kind _ _ _ _ Hstep)
    as [(tid & t & p & -> & Ht & Hpc & Hlock & Htasks)
       |[(tid & t & p & c' & rest & -> & Ht & Hpc & Htasks)
        |[(tid & t & p & -> & Ht & Hpc & Htasks)
         |(Ha & Hs & Hr & Hrt & Hsame)]]].
  - exact (Window_acquire c d0 sub σ1 σ os1 tid t p
             HI HW Hsub1 Ht Hpc Hlock Htasks Hfifo).
  - exact (Window_send c d0 σ1 σ os1 tid t p c' rest
             HI HW Ht Hpc Htasks Hfifo).
  - exact (Window_return c d0 σ1 σ os1 tid t p HI HW Ht Hpc Htasks Hfifo).
  - exact (Window_other c d0 a σ1 σ os1 o HW Hstep Ha Hs Hr Hrt Hsame Hfifo).
Qed.

Lemma step_rank a σ σ' o tid t :
  step a σ = Some (σ', o) → tasks σ !! tid = Some t →
  ∃ t', tasks σ' !! tid = Some t' ∧ rank (at_pc t) ≤ rank (at_pc t').
Proof.
  intros H Ht. step_inv H; cbn.
  all: try split_actor tid; simplify_eq.
  all: try (eexists; split; [done|]; cbn; rewrite_pc; cbn; lia).
Qed.

Lemma run_rank acts : ∀ σ σ' os tid t,
  run acts σ = Some (σ', os) → tasks σ !! tid = Some t →
  ∃ t', tasks σ' !! tid = Some t' ∧ rank (at_pc t) ≤ rank (at_pc t').
Proof.
  induction acts as [|a acts IH]; intros σ σ' os tid t.
  - intros [= <- <-] Ht. eauto.
  - intros (σ1 & o & os' & Hs & Hr & ->)%run_cons Ht.
    destruct (step_rank _ _ _ _ _ _ Hs Ht) as (t1 & Ht1 & Hle).
    destruct (IH _ _ _ _ _ Hr Ht1) as (t' & Ht' & Hle').
    exists t'. split; [done|lia].
Qed.

(** A task found in its block after a step was in it before the step, unless
    it had not yet come that far. *)
Lemma step_yielded_before a σ σ' o sub c t :
  step a σ = Some (σ', o) →
  tasks σ !! sub = Some t → 3 ≤ rank (at_pc t) →
  pc_at σ' sub = Some (SYielded c) →
  pc_at σ sub = Some (SYielded c).
Proof.
  unfold pc_at. intros H Ht Hrank. rewrite Ht. cbn. step_inv H; cbn.
  all: try split_actor sub; simplify_eq.
  all: rewrite ?Ht; cbn; try done.
  all: rewrite_pc; cbn in *; try lia.
  all: try by intros [= <-].
Qed.

Lemma Window_run c d0 sub σ0 acts : ∀ σ os,
  Inv σ0 → Window c d0 σ0 [] →
  pc_at σ0 sub = Some (SYielded c) →
  run acts σ0 = Some (σ, os) →
  pc_at σ sub = Some (SYielded c) →
  Window c d0 σ os.
Proof.
  induction acts as [|a acts IH] using rev_ind; intros σ os HI0 HW0 Hsub0.
  - by intros [= <- <-] _.
  - intros (σ1 & os1 & o & Hrun & Hstep & ->)%run_snoc Hsub.
    assert (Hsub1 : pc_at σ1 sub = Some (SYielded c)).
    { unfold pc_at in Hsub0.
      destruct (tasks σ0 !! sub) as [t0|] eqn:Ht0; [|done]. cbn in Hsub0.
      destruct (run_rank _ _ _ _ _ _ Hrun Ht0) as (t1 & Ht1 & Hle).
      eapply step_yielded_before; [exact Hstep|exact Ht1| |exact Hsub].
      simplify_eq. rewrite Hsub0 in Hle. exact Hle. }
    eapply Window_step; [|by eapply IH|exact Hstep|exact Hsub1|exact Hsub].
    by eapply Inv_run.
Qed.

Lemma filter_all {A} (P : A → Prop) `{!∀ x, Decision (P x)} (l : list A) :
  (∀ x, x ∈ l → P x) → filter P l = l.
Proof.
  induction l as [|x l IH]; intros Hall; [done|].
  rewrite filter_cons_True by (apply Hall; by left).
  f_equal. apply IH. intros y Hy. apply Hall. by right.
Qed.

(** C5, amended.  A subscriber that is in its block at a moment when the lock
    is free, and is still in it later.  Between the two moments:
    - what has been put into its queue is what it has received followed by
      what is still queued: nothing is lost, duplicated or reordered;
    - the payloads put into its queue are those of the trigger calls that
      got the lock in that time and whose loop has come to this queue, in
      the order in which the calls got the lock;
    - every one of these calls that has returned has put its payload into
      the queue;
    - so, when all of them have returned, the subscriber has been sent the
      payload of every one, in that order. *)
Theorem subscriber_receives_in_trigger_order
    n acts0 σ0 os0 acts σ os sub c :
  run acts0 (init n) = Some (σ0, os0) →
  _lock (event σ0) = None →
  pc_at σ0 sub = Some (SYielded c) →
  run acts σ0 = Some (σ, os) →
  pc_at σ sub = Some (SYielded c) →
  (∃ ch0 ch, chans σ0 !! c = Some ch0 ∧ chans σ !! c = Some ch
     ∧ Channel.data ch0 ++ sent c os = received c os ++ Channel.data ch)
  ∧ sent c os = (filter (λ e, reached c os e.1) (acquired os)).*2
  ∧ (∀ e, e ∈ acquired os → returned os e.1 = true →
       reached c os e.1 = true)
  ∧ ((∀ e, e ∈ acquired os → returned os e.1 = true) →
       sent c os = (acquired os).*2).
Proof.
  intros Hreach Hlock Hsub0 Hrun Hsub.
  pose proof (Inv_reachable _ _ _ _ Hreach) as HI0.
  assert (∃ ch0, chans σ0 !! c = Some ch0) as [ch0 Hch0].
  { unfold pc_at in Hsub0.
    destruct (tasks σ0 !! sub) as [t0|] eqn:Ht0; [|done]. cbn in Hsub0.
    simplify_eq. eapply (inv_own _ HI0); [exact Ht0|]. by rewrite Hsub0. }
  pose proof (Window_start σ0 c ch0 HI0 Hlock Hch0) as HW0.
  pose proof (Window_run c _ sub σ0 acts σ os HI0 HW0 Hsub0 Hrun Hsub)
    as [Hfifo Hord Hnd Hpcs Hfl Hre Hret Hcom].
  assert (Hall : ∀ e, e ∈ acquired os → returned os e.1 = true →
                   reached c os e.1 = true).
  { intros [x q] Hin Hr. apply Hcom; [|done].
    by apply (list_elem_of_fmap_2 fst) in Hin. }
  split; [|split; [exact Hord|split; [exact Hall|]]].
  - destruct Hfifo as (ch & Hch & Hq). by exists ch0, ch.
  - intros Hret'. rewrite Hord. f_equal. apply filter_all.
    intros e He. apply Is_true_true. apply Hall; [done|by apply Hret'].
Qed.

End EventFacts.

(** ** Calls of [trigger] under every schedule *)

Section EventCalls.
Import EventModel Actors.
Context {T : Type}.
Variable set_iter : gset nat → list nat.
Hypothesis set_iter_perm : ∀ s, set_iter s ≡ₚ elements s.
Local Abbreviation step := (EventModel.step set_iter).
Local Abbreviation run := (EventModel.run set_iter).
Implicit Types (σ : config T) (t : task T) (os : list (obs T)) (k : pc T).

Ltac step_cases H :=
  unfold EventModel.step, trigger, subscribe, receive,
    Channel.send_nowait, Channel.receive_nowait in H;
  repeat (case_match; simplify_eq); simplify_eq.

Ltac in_list H :=
  repeat (apply elem_of_cons in H as [H|H]; simplify_eq);
  try (by apply elem_of_nil in H).

(** A step is the step of one task: what is observed is about that task,
    and no other task moves. *)
Lemma step_actor_obs a σ σ' o ob :
  step a σ = Some (σ', o) → ob ∈ o → obs_task ob = actor a.
Proof.
  intros H Hin. step_cases H; in_list Hin; done.
Qed.

Lemma step_other_task a σ σ' o tid :
  step a σ = Some (σ', o) → tid ≠ actor a →
  tasks σ' !! tid = tasks σ !! tid.
Proof.
  intros H Hne. step_cases H; simpl in *; try done.
  all: by rewrite lookup_insert_ne.
Qed.

Lemma returned_other a σ σ' o tid :
  step a σ = Some (σ', o) → tid ≠ actor a → returned o tid = false.
Proof.
  intros H Hne. apply not_true_is_false. intros Hr.
  unfold returned in Hr. apply existsb_exists in Hr as (ob & Hin & Hob).
  apply list_elem_of_In in Hin.
  pose proof (step_actor_obs a σ σ' o ob H Hin) as Hact.
  destruct ob; try done. apply bool_decide_eq_true in Hob. simpl in Hact.
  congruence.
Qed.

(** No step changes [_channels] while some task is in the loop of
    [trigger]. *)
Lemma step_channels_in_loop a σ σ' o tid t p it :
  Inv σ → tasks σ !! tid = Some t → at_pc t = TIterate p it →
  step a σ = Some (σ', o) →
  _channels (event σ') = _channels (event σ).
Proof.
  intros HI Ht Hpc Hstep.
  assert (holds_lock (at_pc t) = true) as Hh by by rewrite Hpc.
  assert (∀ y ty, tasks σ !! y = Some ty → holds_lock (at_pc ty) = true →
                  ∃ p' it', at_pc ty = TIterate p' it') as Hother.
  { intros y ty Hy Hly.
    rewrite <-(lock_unique σ tid y t ty HI Ht Hy Hh Hly) in Hy.
    simplify_eq. eauto. }
  step_cases Hstep; simpl; try done.
  all: match goal with
       | Hy : tasks _ !! ?y = Some ?ty, Hk : at_pc ?ty = _ |- _ =>
           destruct (Hother y ty Hy) as (? & ? & ?);
             [by rewrite Hk|congruence]
       end.
Qed.

(** A call of [trigger] that stands in its loop with nothing left to visit,
    while the set is empty, under one step of any task. *)
Lemma empty_loop_step tid p a σ σ' o t :
  Inv σ → tasks σ !! tid = Some t → at_pc t = TIterate p [] →
  _channels (event σ) = ∅ →
  step a σ = Some (σ', o) →
  (∀ ob, ob ∈ o → obs_task ob = tid → ob = OReturn tid)
  ∧ _channels (event σ') = ∅
  ∧ ((returned o tid = false
      ∧ ∃ t', tasks σ' !! tid = Some t' ∧ at_pc t' = TIterate p [])
     ∨ (returned o tid = true ∧ pc_at σ' tid = Some Returned)).
Proof.
  intros HI Ht Hpc Hempty H.
  pose proof (step_channels_in_loop a σ σ' o tid t p [] HI Ht Hpc H) as Hch.
  split; [|split; [congruence|]].
  - intros ob Hin Hob.
    pose proof (step_actor_obs a σ σ' o ob H Hin) as Hact.
    rewrite Hob in Hact.
    step_cases H; simpl in Hact; simplify_eq; in_list Hin; congruence.
  - destruct (decide (tid = actor a)) as [Heq|Hne].
    + subst tid. step_cases H; simpl in *; simplify_eq.
      all: try congruence.
      * right. split; [by rewrite bool_decide_eq_true_2|].
        unfold pc_at. simpl. by rewrite lookup_insert_eq.
      * left. split; [done|]. rewrite lookup_insert_eq. eauto.
    + left. split; [by eapply returned_other|].
      rewrite (step_other_task a σ σ' o tid H Hne). eauto.
Qed.

(** A call that has returned is not heard of again. *)
Lemma returned_silent tid a σ σ' o :
  pc_at σ tid = Some Returned →
  step a σ = Some (σ', o) →
  ∀ ob, ob ∈ o → obs_task ob ≠ tid.
Proof.
  intros Hpc H ob Hin Hob.
  pose proof (step_actor_obs a σ σ' o ob H Hin) as Hact.
  rewrite Hob in Hact. unfold pc_at in Hpc.
  step_cases H; simpl in Hact; simplify_eq; in_list Hin.
  all: match goal with
       | Ht : tasks _ !! _ = Some ?t, Hk : at_pc ?t = _ |- _ =>
           rewrite Ht in Hpc; simpl in Hpc; congruence
       end.
Qed.

(** C9, amended.  A call of [trigger] that gets the lock while no subscriber
    is registered returns, whatever the other tasks do in the meantime.  The
    call of a task that is not cancelled gets the lock at its next step when
    the lock is free; if [_channels] is empty then, the loop has nothing to
    visit.  From there on, under every schedule, the call puts nothing into
    any queue and raises nothing; until it has returned it holds the lock,
    the set stays empty, and its next step is enabled, returns, releases the
    lock and touches no queue. *)
Theorem trigger_on_empty_set_returns n acts0 σ os0 tid t p :
  run acts0 (init n) = Some (σ, os0) →
  tasks σ !! tid = Some t → at_pc t = TAcquire p → cancelled t = false →
  _lock (event σ) = None →
  _channels (event σ) = ∅ →
  ∃ σ1,
    step (Run tid) σ = Some (σ1, [OAcquire tid p])
    ∧ ∀ acts σ2 os, run acts σ1 = Some (σ2, os) →
        (∀ c q, OSend tid c q ∉ os)
        ∧ (∀ e, ORaise tid e ∉ os)
        ∧ ((returned os tid = false
            ∧ pc_at σ2 tid = Some (TIterate p [])
            ∧ _lock (event σ2) = Some tid
            ∧ _channels (event σ2) = ∅
            ∧ ∃ σ3, step (Run tid) σ2 = Some (σ3, [OReturn tid])
                    ∧ pc_at σ3 tid = Some Returned
                    ∧ _lock (event σ3) = None
                    ∧ _channels (event σ3) = ∅
                    ∧ chans σ3 = chans σ2)
           ∨ (returned os tid = true ∧ pc_at σ2 tid = Some Returned)).
Proof.
  intros Hreach Ht Hpc Hnc Hl Hempty.
  pose proof (Inv_reachable set_iter set_iter_perm _ _ _ _ Hreach) as HI.
  set (σ1 := goto tid t (TIterate p (set_iter (_channels (event σ))))
               (set_lock (Some tid) σ)).
  assert (step (Run tid) σ = Some (σ1, [OAcquire tid p])) as H1.
  { unfold EventModel.step. rewrite Ht, Hpc. unfold trigger.
    by rewrite Hpc, Hnc, Hl. }
  exists σ1. split; [done|].
  pose proof (Inv_step set_iter set_iter_perm _ _ _ _ HI H1) as HI1.
  assert (∀ acts σ2 os, run acts σ1 = Some (σ2, os) →
            (∀ ob, ob ∈ os → obs_task ob = tid → ob = OReturn tid)
            ∧ ((returned os tid = false ∧ _channels (event σ2) = ∅
                ∧ ∃ t', tasks σ2 !! tid = Some t' ∧ at_pc t' = TIterate p [])
               ∨ (returned os tid = true ∧ pc_at σ2 tid = Some Returned)))
    as Hgen.
  { induction acts as [|a acts IH] using rev_ind; intros σ2 os Hrun.
    - injection Hrun as <- <-. split; [by intros ? ?%elem_of_nil|].
      left. split; [done|]. split; [by unfold σ1|].
      unfold σ1. simpl. rewrite lookup_insert_eq, Hempty, (set_iter_empty set_iter set_iter_perm).
      eexists. split; [done|]. done.
    - apply run_snoc in Hrun as (σm & osm & o & Hrunm & Ha & ->).
      pose proof (Inv_run set_iter set_iter_perm _ _ _ _ HI1 Hrunm) as HIm.
      destruct (IH σm osm Hrunm)
        as (Hobs & [(Hret & Hem & tm & Htm & Hpcm)|(Hret & Hpcm)]).
      + destruct (empty_loop_step tid p a σm σ2 o tm HIm Htm Hpcm Hem Ha)
          as (Hobs' & Hem' & Hcase).
        split.
        { intros ob [?|?]%elem_of_app; auto. }
        rewrite returned_app, Hret. simpl.
        destruct Hcase as [(Hr' & t' & Ht' & Hpc')|(Hr' & Hpc')].
        * left. split; [done|]. split; [done|]. eauto.
        * right. by split.
      + split.
        { intros ob [?|Hin]%elem_of_app Hob; [auto|].
          by destruct (returned_silent tid a σm σ2 o Hpcm Ha ob Hin). }
        right. rewrite returned_app, Hret. split; [done|].
        by eapply step_returned. }
  intros acts σ2 os Hrun.
  destruct (Hgen acts σ2 os Hrun) as (Hobs & Hcase).
  split; [intros c q Hin; by specialize (Hobs _ Hin eq_refl)|].
  split; [intros e Hin; by specialize (Hobs _ Hin eq_refl)|].
  destruct Hcase as [(Hret & Hem & t' & Ht' & Hpc')|(Hret & Hpcr)];
    [left|by right].
  assert (Inv σ2) as HI2.
  { eapply Inv_run; [done|exact HI1|exact Hrun]. }
  split; [done|]. split; [unfold pc_at; by rewrite Ht'; simpl; rewrite Hpc'|].
  split; [apply (inv_lock _ HI2 tid t' Ht'); by rewrite Hpc'|].
  split; [done|].
  eexists. split.
  { unfold EventModel.step. rewrite Ht', Hpc'. unfold trigger.
    rewrite Hpc'. reflexivity. }
  split; [unfold pc_at; simpl; by rewrite lookup_insert_eq|].
  done.
Qed.

(** No step takes a channel away. *)
Lemma step_chan_stays a σ σ' o c (ch : Channel.state T) :
  chans σ !! c = Some ch → step a σ = Some (σ', o) →
  is_Some (chans σ' !! c).
Proof.
  intros Hch H. step_cases H; simpl; try by eauto.
  all: match goal with
       | |- is_Some (<[?x := _]> _ !! _) =>
           destruct (decide (x = c)) as [->|?];
             [rewrite lookup_insert_eq|rewrite lookup_insert_ne by done];
             eauto
       end.
Qed.

(** A call of [trigger] parked before a full queue, under one step of
    another kind than its cancellation, a receive from that queue or the
    closing of its handle. *)
Lemma parked_step a σ σ' o tid t p c rest ch :
  Inv σ →
  tasks σ !! tid = Some t → at_pc t = TIterate p (c :: rest) →
  cancelled t = false →
  chans σ !! c = Some ch → Channel.closed ch = false →
  length (Channel.data ch) = capacity →
  step a σ = Some (σ', o) →
  a ≠ Cancel tid →
  (∀ tid' v, OReceive tid' c v ∉ o) → (∀ tid', OClose tid' c ∉ o) →
  tasks σ' !! tid = Some t ∧ chans σ' !! c = Some ch.
Proof.
  intros HI Ht Hpc Hnc Hch Hopen Hfull H Hcancel Hrecv Hclose.
  destruct (inv_capacity _ HI c ch Hch) as [Hmax _].
  assert (step (Run tid) σ = None) as Hblocked.
  { eapply trigger_blocked; eauto. lia. }
  split.
  - rewrite <-Ht. apply (step_other_task a σ σ' o tid H).
    intros Heq. clear Hrecv Hclose.
    destruct a; simpl in Heq; subst; try congruence.
    all: step_cases H; congruence.
  - destruct (step_chan_stays a σ σ' o c ch Hch H) as [ch' Hch'].
    rewrite Hch'. f_equal.
    destruct (step_data set_iter a σ σ' o c ch ch' H Hch Hch')
      as [->|[(tid' & q & _ & _ & _ & Hroom)|[(tid' & v & -> & _)|(tid' & -> & _)]]].
    + done.
    + lia.
    + destruct (Hrecv tid' v). apply list_elem_of_here.
    + destruct (Hclose tid'). apply list_elem_of_here.
Qed.

Lemma parked_run acts : ∀ σ σ' os tid t p c rest ch,
  Inv σ →
  tasks σ !! tid = Some t → at_pc t = TIterate p (c :: rest) →
  cancelled t = false →
  chans σ !! c = Some ch → Channel.closed ch = false →
  length (Channel.data ch) = capacity →
  run acts σ = Some (σ', os) →
  Cancel tid ∉ acts →
  (∀ tid' v, OReceive tid' c v ∉ os) → (∀ tid', OClose tid' c ∉ os) →
  tasks σ' !! tid = Some t ∧ chans σ' !! c = Some ch.
Proof.
  induction acts as [|a acts IH];
    intros σ σ' os tid t p c rest ch HI Ht Hpc Hnc Hch Hopen Hfull Hrun
      Hcancel Hrecv Hclose.
  - by injection Hrun as <- <-.
  - apply run_cons in Hrun as (σ1 & o & os1 & Ha & Hrest & ->).
    destruct (parked_step a σ σ1 o tid t p c rest ch HI Ht Hpc Hnc Hch Hopen
                Hfull Ha) as [Ht1 Hch1].
    { intros ->. apply Hcancel. apply list_elem_of_here. }
    { intros tid' v Hin. apply (Hrecv tid' v). apply elem_of_app. by left. }
    { intros tid' Hin. apply (Hclose tid'). apply elem_of_app. by left. }
    apply (IH σ1 σ' os1 tid t p c rest ch); try done.
    + by eapply Inv_step.
    + intros Hin. apply Hcancel. by apply list_elem_of_further.
    + intros tid' v Hin. apply (Hrecv tid' v). apply elem_of_app. by right.
    + intros tid' Hin. apply (Hclose tid'). apply elem_of_app. by right.
Qed.

(** C7, amended.  Every queue of a reachable configuration has capacity 256
    and never holds more.  A call of [trigger] that is not cancelled and
    whose loop stands before a queue that is open and holds 256 payloads
    cannot take a step: it does not fail and does not drop its payload.
    Under every schedule in which the call is not cancelled, nothing is
    received from that queue and its receive handle is not closed, the call
    stays where it is, unable to step, and the queue stays as it is.  Once
    [receive()] has taken the head of the queue, the call's next step puts
    its payload at the tail; once the receive handle has been closed, the
    call's next step raises BrokenResourceError.  A step changes the content
    of a queue only by a send at the tail, by handing the head to
    [receive()], or by closing the receive handle, which discards what is
    buffered. *)
Theorem full_queue_parks_trigger n acts0 σ os0 tid t p c rest ch :
  run acts0 (init n) = Some (σ, os0) →
  tasks σ !! tid = Some t →
  at_pc t = TIterate p (c :: rest) →
  cancelled t = false →
  chans σ !! c = Some ch →
  Channel.closed ch = false →
  length (Channel.data ch) = capacity →
  (∀ c0 ch0, chans σ !! c0 = Some ch0 →
     Channel.max_buffer_size ch0 = 256 ∧ length (Channel.data ch0) ≤ 256)
  ∧ step (Run tid) σ = None
  ∧ (∀ acts σ' os, run acts σ = Some (σ', os) →
       Cancel tid ∉ acts →
       (∀ tid' v, OReceive tid' c v ∉ os) →
       (∀ tid', OClose tid' c ∉ os) →
       tasks σ' !! tid = Some t
       ∧ chans σ' !! c = Some ch
       ∧ step (Run tid) σ' = None)
  ∧ (∀ tid' v σ',
       step (Receive tid') σ = Some (σ', [OReceive tid' c v]) →
       ∃ l σ'', Channel.data ch = v :: l
         ∧ step (Run tid) σ' = Some (σ'', [OSend tid c p])
         ∧ (Channel.data <$> chans σ'' !! c) = Some (l ++ [p]))
  ∧ (∀ a tid' σ',
       step a σ = Some (σ', [OClose tid' c]) →
       ∃ σ'', step (Run tid) σ' = Some (σ'', [ORaise tid BrokenResourceError])
         ∧ pc_at σ'' tid = Some (Raised BrokenResourceError)
         ∧ (Channel.data <$> chans σ'' !! c) = Some [])
  ∧ (∀ a σ' os c0 ch0 ch0',
       step a σ = Some (σ', os) →
       chans σ !! c0 = Some ch0 → chans σ' !! c0 = Some ch0' →
       Channel.data ch0' = Channel.data ch0
       ∨ (∃ p', Channel.data ch0' = Channel.data ch0 ++ [p'])
       ∨ (∃ tid' v, os = [OReceive tid' c0 v]
                    ∧ Channel.data ch0 = v :: Channel.data ch0')
       ∨ (∃ tid', os = [OClose tid' c0] ∧ Channel.data ch0' = [])).
Proof.
  intros Hreach Ht Hpc Hnc Hch Hopen Hfull.
  pose proof (Inv_reachable set_iter set_iter_perm _ _ _ _ Hreach) as HI.
  destruct (full_queue_suspends_trigger set_iter set_iter_perm n acts0 σ os0
              tid t p c rest ch Hreach Ht Hpc Hnc Hch Hopen Hfull)
    as (Hcap & Hblocked & _ & Hrecv & _).
  split; [done|]. split; [done|]. split; [|split; [done|split]].
  - intros acts σ' os Hrun Hcancel Hnorecv Hnoclose.
    destruct (parked_run acts σ σ' os tid t p c rest ch HI Ht Hpc Hnc Hch
                Hopen Hfull Hrun Hcancel Hnorecv Hnoclose) as [Ht' Hch'].
    split; [done|]. split; [done|].
    destruct (inv_capacity _ HI c ch Hch) as [Hmax _].
    eapply trigger_blocked; eauto. lia.
  - intros a tid' σ' Ha.
    assert (tid ≠ actor a) as Hne.
    { intros Heq.
      pose proof (step_actor_obs a σ σ' _ (OClose tid' c) Ha
                    (list_elem_of_here _ _)) as Hact.
      clear Hrecv Hact. destruct a; simpl in Heq; subst;
        step_cases Ha; congruence. }
    pose proof (step_other_task a σ σ' _ tid Ha Hne) as Ht'.
    rewrite Ht in Ht'.
    destruct (step_chan_stays a σ σ' _ c ch Hch Ha) as [ch' Hch'].
    destruct (step_data set_iter a σ σ' _ c ch ch' Ha Hch Hch')
      as [->|[(? & ? & ? & _)|[(? & ? & ? & _)|(? & _ & ->)]]];
      [|done|done|].
    + exfalso. clear Hrecv.
      step_cases Ha; simpl in *.
      all: rewrite lookup_insert_eq in Hch'; simplify_eq.
      all: rewrite <-Hch' in Hopen; done.
    + eexists. split.
      { unfold EventModel.step. rewrite Ht', Hpc. unfold trigger.
        rewrite Hpc, Hnc, Hch'. reflexivity. }
      split; [unfold pc_at; simpl; by rewrite lookup_insert_eq|].
      simpl. by rewrite Hch'.
  - intros a σ' os c0 ch0 ch0' Ha Hc0 Hc0'.
    destruct (step_data set_iter a σ σ' os c0 ch0 ch0' Ha Hc0 Hc0')
      as [->|[(? & q & _ & -> & _)|[(tid' & v & -> & Hd & _)|(tid' & -> & ->)]]].
    + by left.
    + right. left. by exists q.
    + right. right. left. by exists tid', v.
    + right. right. right. by exists tid'.
Qed.

End EventCalls.

(** * The event on closed schedules *)

Section Schedules.
Import EventModel Scenario.

Lemma elements_perm (s : gset nat) : elements s ≡ₚ elements s.
Proof. reflexivity. Qed.

(** C1 as stated fails.  Subscribers 1 (channel 0) and 2 (channel 1) are
    registered; task 3 calls [trigger(7)], gets the lock and is about to
    iterate over channels 1 and 0; subscriber 2 leaves its block, so its
    receive handle is closed while its send handle is still registered.  The
    next step of the call raises BrokenResourceError to the caller of
    [trigger]: the call is over, and subscriber 1, still in its block with an
    open channel, has not been sent the payload. *)
Lemma trigger_aborted_by_closed_subscriber :
  ∃ σ1 os1 σ2,
    run elements
      (two_subscribers ++ [CallTrigger 3 7; Run 3; Exit 2 None; Run 2])
      (init "e") = Some (σ1, os1)
    ∧ pc_at σ1 3 = Some (TIterate 7 [1; 0])
    ∧ Channel.closed <$> chans σ1 !! 1 = Some true
    ∧ Channel.closed <$> chans σ1 !! 0 = Some false
    ∧ pc_at σ1 1 = Some (SYielded 0)
    ∧ step elements (Run 3) σ1 = Some (σ2, [ORaise 3 BrokenResourceError])
    ∧ pc_at σ2 3 = Some (Raised BrokenResourceError)
    ∧ step elements (Run 3) σ2 = None
    ∧ Channel.data <$> chans σ2 !! 0 = Some [].
Proof.
  do 3 eexists. split; [vm_compute; reflexivity|].
  repeat split; vm_compute; reflexivity.
Qed.

(** C1, amended, at one input: subscriber 1 has left its block, so channel 0
    is closed; the loop of [trigger(7)] delivers to channel 1 and then
    raises. *)
Lemma trigger_raises_at_closed_channel_witness :
  let σ := state_after
             (two_subscribers ++ [CallTrigger 3 7; Run 3; Exit 1 None; Run 1]) in
  ∃ σ',
    run elements [Run 3; Run 3] σ
    = Some (σ', [OSend 3 1 7; ORaise 3 BrokenResourceError])
    ∧ pc_at σ' 3 = Some (Raised BrokenResourceError).
Proof.
  intros σ.
  destruct (trigger_raises_at_closed_channel elements σ 3
              {| cancelled := false; at_pc := TIterate 7 [1; 0] |} 7 [1] 0 []
              {| Channel.data := []; Channel.max_buffer_size := 256;
                 Channel.closed := true |})
    as (σ' & Hrun & Hpc & _).
  - vm_compute; reflexivity.
  - reflexivity.
  - reflexivity.
  - apply (bool_decide_unpack _). vm_compute. exact I.
  - intros c' Hc'. apply list_elem_of_singleton in Hc'. subst c'.
    exists {| Channel.data := []; Channel.max_buffer_size := 256;
              Channel.closed := false |}.
    split; [vm_compute; reflexivity|]. split; [reflexivity|]. cbn. lia.
  - vm_compute; reflexivity.
  - reflexivity.
  - exists σ'. split; [exact Hrun|exact Hpc].
Defined.

(** C5 as stated fails.  Subscriber 1 is in its block, with the lock free,
    before task 3 calls [trigger(7)], and is still in its block after that
    call has ended; yet the payload has not been put into its queue: the call
    raised at the closed channel of subscriber 2, which came first. *)
Lemma subscriber_misses_aborted_trigger :
  let σ0 := state_after two_subscribers in
  ∃ σ os,
    _lock (event σ0) = None
    ∧ pc_at σ0 1 = Some (SYielded 0)
    ∧ run elements trigger_meets_closed σ0 = Some (σ, os)
    ∧ pc_at σ 1 = Some (SYielded 0)
    ∧ acquired os = [(3, 7)]
    ∧ pc_at σ 3 = Some (Raised BrokenResourceError)
    ∧ sent 0 os = []
    ∧ received 0 os = []
    ∧ Channel.data <$> chans σ !! 0 = Some [].
Proof.
  intros σ0. do 2 eexists. split; [vm_compute; reflexivity|].
  split; [vm_compute; reflexivity|].
  split; [vm_compute; reflexivity|].
  repeat split; vm_compute; reflexivity.
Qed.

(** C5, amended, at one input: two subscribers in their blocks; the calls
    [trigger(7)] and [trigger(8)] run to their ends, subscriber 1 receives
    once in between. *)
Lemma subscriber_receives_in_trigger_order_witness :
  let σ0 := state_after two_subscribers in
  let os := seen_from σ0 two_triggers in
  sent 0 os = (acquired os).*2
  ∧ (acquired os).*2 = [7; 8]
  ∧ received 0 os = [7].
Proof.
  intros σ0 os.
  split; [|split; vm_compute; reflexivity].
  destruct (subscriber_receives_in_trigger_order elements elements_perm
              "e" two_subscribers σ0 (seen_after two_subscribers)
              two_triggers (state_from σ0 two_triggers) os 1 0)
    as (_ & _ & _ & Hall).
  - vm_compute; reflexivity.
  - vm_compute; reflexivity.
  - vm_compute; reflexivity.
  - vm_compute; reflexivity.
  - vm_compute; reflexivity.
  - apply Hall. apply Forall_forall. apply (bool_decide_unpack _).
    vm_compute. exact I.
Defined.

(** C6, evaluated on the code: task 1 subscribes and is cancelled in its
    block.  Leaving the block closes the receive handle and raises
    [Cancelled] at the lock; the call is over, the lock is free, and channel
    0 is still in [_channels].  After a second such cycle, by task 2, the
    set holds two channels. *)
Theorem cancelled_subscription_stays_registered :
  ∃ σ1 os1 σ2 os2,
    run elements (cancelled_cycle 1) (init "e") = Some (σ1, os1)
    ∧ os1 = [ORegister 1 0; OClose 1 0; ORaise 1 Cancelled]
    ∧ pc_at σ1 1 = Some (Raised Cancelled)
    ∧ step elements (Run 1) σ1 = None
    ∧ _lock (event σ1) = None
    ∧ elements (_channels (event σ1)) = [0]
    ∧ run elements (cancelled_cycle 2) σ1 = Some (σ2, os2)
    ∧ pc_at σ2 2 = Some (Raised Cancelled)
    ∧ size (_channels (event σ2)) = 2.
Proof.
  do 4 eexists. split; [vm_compute; reflexivity|].
  do 5 (split; [vm_compute; reflexivity|]).
  split; [vm_compute; reflexivity|].
  split; vm_compute; reflexivity.
Qed.

(** C10 at one input: subscriber 1 leaves its block; subscriber 2 and its
    channel 1 are as they were. *)
Lemma subscription_frame_witness :
  let σ := state_after two_subscribers in
  let σ' := state_after (two_subscribers ++ [Exit 1 None]) in
  tasks σ' !! 2 = Some {| cancelled := false; at_pc := SYielded 1 |}
  ∧ (1 ∈ _channels (event σ') ↔ 1 ∈ _channels (event σ))
  ∧ chans σ' !! 1 = chans σ !! 1.
Proof.
  intros σ σ'.
  apply (subscription_frame elements elements_perm "e" two_subscribers σ
           (seen_after two_subscribers) (Exit 1 None) 1 σ' []).
  - vm_compute; reflexivity.
  - reflexivity.
  - vm_compute; reflexivity.
  - discriminate.
  - vm_compute; reflexivity.
  - reflexivity.
Defined.

(** C7 as stated fails.  Subscriber 1 never receives; 256 calls of [trigger]
    have filled its queue and the next one, of task 1000, is pending before
    it.  The subscriber leaves its block without having received anything:
    closing the receive handle discards the 256 payloads the queue had
    accepted, and the pending call does not wait for a slot but raises
    BrokenResourceError. *)
Lemma pending_trigger_fails_when_subscriber_leaves :
  let σ := state_after (fill 256 ++ [CallTrigger 1000 999; Run 1000]) in
  ∃ σ1 os1 σ2,
    (Channel.data <$> chans σ !! 0) = Some (seq 0 256)
    ∧ received 0 (seen_after (fill 256 ++ [CallTrigger 1000 999; Run 1000]))
      = []
    ∧ pc_at σ 1000 = Some (TIterate 999 [0])
    ∧ step elements (Run 1000) σ = None
    ∧ run elements [Exit 1 None; Run 1] σ = Some (σ1, os1)
    ∧ os1 = [OClose 1 0]
    ∧ (Channel.data <$> chans σ1 !! 0) = Some []
    ∧ step elements (Run 1000) σ1
      = Some (σ2, [ORaise 1000 BrokenResourceError])
    ∧ pc_at σ2 1000 = Some (Raised BrokenResourceError).
Proof.
  intros σ. do 3 eexists.
  do 4 (split; [vm_compute; reflexivity|]).
  split; [vm_compute; reflexivity|].
  do 3 (split; [vm_compute; reflexivity|]).
  vm_compute; reflexivity.
Qed.

(** C7, amended, at one input: one subscriber that never receives, 256 calls
    of [trigger] run to their ends, and a 257th that has got the lock;
    another task then starts a subscription. *)
Lemma full_queue_parks_trigger_witness :
  let σ := state_after (fill 256 ++ [CallTrigger 1000 999; Run 1000]) in
  (∀ c0 ch0, chans σ !! c0 = Some ch0 →
     Channel.max_buffer_size ch0 = 256 ∧ length (Channel.data ch0) ≤ 256)
  ∧ step elements (Run 1000) σ = None
  ∧ step elements (Run 1000) (state_from σ [CallSubscribe 2000; Run 2000]) = None.
Proof.
  intros σ.
  destruct (full_queue_parks_trigger elements elements_perm "e"
              (fill 256 ++ [CallTrigger 1000 999; Run 1000]) σ
              (seen_after (fill 256 ++ [CallTrigger 1000 999; Run 1000]))
              1000 {| cancelled := false; at_pc := TIterate 999 [0] |}
              999 0 []
              {| Channel.data := seq 0 256; Channel.max_buffer_size := 256;
                 Channel.closed := false |})
    as (Hcap & Hblocked & Hstays & _).
  - vm_compute; reflexivity.
  - vm_compute; reflexivity.
  - reflexivity.
  - reflexivity.
  - vm_compute; reflexivity.
  - reflexivity.
  - vm_compute; reflexivity.
  - split; [exact Hcap|]. split; [exact Hblocked|].
    destruct (Hstays [CallSubscribe 2000; Run 2000]
                (state_from σ [CallSubscribe 2000; Run 2000]) [])
      as (_ & _ & Hparked).
    + vm_compute; reflexivity.
    + intros Hin. apply elem_of_cons in Hin as [?|Hin]; [discriminate|].
      apply list_elem_of_singleton in Hin. discriminate.
    + intros tid' v Hin. by apply elem_of_nil in Hin.
    + intros tid' Hin. by apply elem_of_nil in Hin.
    + exact Hparked.
Defined.

(** C9 as stated fails.  Task 1 is in [subscribe] between lines 60 and 61:
    it holds the lock and has not added its endpoint yet, so the set is
    empty when task 2 calls [trigger(7)].  The call waits for the lock, gets
    it after the endpoint has been added, and puts the payload into the new
    queue.  And on a new event, a call whose task is cancelled before its
    first step does not return: it raises [Cancelled]. *)
Lemma trigger_on_empty_set_delivers :
  ∃ σ1 os1 σ2 os2 σ3,
    run elements [CallSubscribe 1; Run 1; Run 1; CallTrigger 2 7] (init "e")
    = Some (σ1, os1)
    ∧ _channels (event σ1) = ∅
    ∧ pc_at σ1 2 = Some (TAcquire 7)
    ∧ step elements (Run 2) σ1 = None
    ∧ run elements [Run 1; Run 2; Run 2; Run 2] σ1 = Some (σ2, os2)
    ∧ os2 = [ORegister 1 0; OAcquire 2 7; OSend 2 0 7; OReturn 2]
    ∧ (Channel.data <$> chans σ2 !! 0) = Some [7]
    ∧ run elements [CallTrigger 1 7; Cancel 1; Run 1] (init "e")
      = Some (σ3, [ORaise 1 Cancelled]).
Proof.
  do 5 eexists.
  split; [vm_compute; reflexivity|].
  do 3 (split; [vm_compute; reflexivity|]).
  split; [vm_compute; reflexivity|].
  do 2 (split; [vm_compute; reflexivity|]).
  vm_compute; reflexivity.
Qed.

(** C9, amended, at one input: [trigger(7)] called on a new event. *)
Lemma trigger_on_empty_set_returns_witness :
  let σ := state_after [CallTrigger 1 7] in
  ∃ σ1,
    step elements (Run 1) σ = Some (σ1, [OAcquire 1 7])
    ∧ ∀ acts σ2 os, run elements acts σ1 = Some (σ2, os) →
        (∀ c q, OSend 1 c q ∉ os) ∧ (∀ e, ORaise 1 e ∉ os).
Proof.
  intros σ.
  destruct (trigger_on_empty_set_returns elements elements_perm "e"
              [CallTrigger 1 7] σ [] 1
              {| cancelled := false; at_pc := TAcquire 7 |} 7)
    as (σ1 & Hstep & Hall).
  - vm_compute; reflexivity.
  - vm_compute; reflexivity.
  - reflexivity.
  - reflexivity.
  - vm_compute; reflexivity.
  - vm_compute; reflexivity.
  - exists σ1. split; [exact Hstep|].
    intros acts σ2 os Hrun.
    destruct (Hall acts σ2 os Hrun) as (Hsend & Hraise & _).
    split; [exact Hsend|exact Hraise].
Defined.

End Schedules.

(** * Further properties of the module *)

(** ** ReAwaitable *)

Section ReAwaitableUse.
Import ReAwaitable.
Context {A : Type}.
Implicit Types (r : ReAwaitable A) (h : heap A) (s : ReAwaitable A * heap A).

(** X7: the wrapped awaitable's own [__await__] is called by every await of
    the wrapper until one such call returns an iterator, and never again
    after that, however awaits and resumptions are interleaved.  If it
    returns at its first call, it is called once if the wrapper is awaited
    at all, and not at all otherwise. *)
Theorem reawaitable_calls_wrapped_until_returned
  (a : awaitable A) (h : heap A) (ops : list op) :
  let s := foldl exec (__init__ a, h) ops in
  invocations s.2 ≤ invocations h + awaits ops
  ∧ (is_done s.1 = false → invocations s.2 = invocations h + awaits ops)
  ∧ (is_done s.1 = true →
       ∀ ops', invocations (foldl exec s ops').2 = invocations s.2)
  ∧ (aw_call a (invocations h) = None →
       invocations s.2
       = invocations h + (if bool_decide (OpAwait ∈ ops) then 1 else 0)).
Proof.
  intros s.
  destruct (run_new a ops h)
    as [(Hd & Hinv & Hall)|(Hd & j & Hj & Hc & Hm & Hinv)];
    fold s in Hd, Hinv.
  - split; [lia|]. split; [done|]. split; [congruence|].
    intros Hcall.
    destruct (awaits ops) as [|k] eqn:Hk.
    + rewrite bool_decide_eq_false_2; [lia|].
      intros Hin%awaits_pos. lia.
    + destruct (Hall 0); [lia|]. by rewrite Nat.add_0_r.
  - split; [lia|]. split; [congruence|]. split.
    + intros _ ops'. destruct s as [[a' [i|]] h']; [|done].
      by destruct (run_done ops' (({| _awaitable := a'; _result := Some i |}), h')
                     i eq_refl).
    + intros Hcall. destruct j as [|j].
      * rewrite bool_decide_eq_true_2; [lia|]. apply awaits_pos. lia.
      * destruct (Hm 0); [lia|]. by rewrite Nat.add_0_r.
Qed.

(** X8: once a call of [__await__] on a wrapper has returned an iterator,
    every later call on that wrapper returns the same iterator object and
    changes nothing, whatever awaits and resumptions happen in between. *)
Theorem reawaitable_await_returns_same_iterator
  (r : ReAwaitable A) (h : heap A) (i : nat) (r1 : ReAwaitable A)
  (h1 : heap A) (ops : list op) :
  __await__ r h = (Iterator i, r1, h1) →
  let s := foldl exec (r1, h1) ops in
  __await__ s.1 s.2 = (Iterator i, s.1, s.2).
Proof.
  intros Hcall s.
  assert (_result r1 = Some i) as Hr1.
  { unfold __await__, awaitable_await in Hcall.
    destruct r as [a [j|]]; simpl in Hcall.
    - by injection Hcall as -> <- <-.
    - destruct (aw_call a (invocations h)); [done|].
      by injection Hcall as <- <- <-. }
  destruct (run_done ops (r1, h1) i Hr1) as [Hs _]. fold s in Hs.
  unfold __await__. by rewrite Hs.
Qed.

End ReAwaitableUse.

(** ** Event *)

Section EventUse.
Import EventModel Pending.
Context {T : Type}.
Variable set_iter : gset nat → list nat.
Hypothesis set_iter_perm : ∀ s, set_iter s ≡ₚ elements s.
Local Abbreviation step := (EventModel.step set_iter).
Local Abbreviation run := (EventModel.run set_iter).
Implicit Types (σ : config T) (t : task T) (os : list (obs T)) (k : pc T).

Ltac step_cases H :=
  unfold EventModel.step, trigger, subscribe, receive,
    Channel.send_nowait, Channel.receive_nowait in H;
  repeat (case_match; simplify_eq); simplify_eq.

Ltac actor_or_other H :=
  apply lookup_insert_Some in H as [[? ?]|[? H]]; simplify_eq/=.

Ltac in_list H :=
  repeat (apply elem_of_cons in H as [H|H]; simplify_eq);
  try (by apply elem_of_nil in H).

(** X1: the sections of [trigger] and [subscribe] under [self._lock] exclude
    one another.  In every configuration the scheduler can reach, at most one
    task is in the loop of [trigger], at [add] or at [remove], and the lock
    names that task. *)
Theorem critical_sections_exclude n acts σ os x y tx ty :
  run acts (init n) = Some (σ, os) →
  tasks σ !! x = Some tx → tasks σ !! y = Some ty →
  holds_lock (at_pc tx) = true → holds_lock (at_pc ty) = true →
  x = y ∧ _lock (event σ) = Some x.
Proof.
  intros Hrun Hx Hy Hlx Hly.
  pose proof (Inv_reachable set_iter set_iter_perm _ _ _ _ Hrun) as HI.
  split.
  - exact (lock_unique σ x y tx ty HI Hx Hy Hlx Hly).
  - by apply (inv_lock _ HI x tx Hx).
Qed.

(** X2: [async with self._lock] gives the lock back on every way out.  In
    every reachable configuration the owner of the lock is a task inside one
    of the sections under the lock; a call that has returned or raised does
    not own it. *)
Theorem lock_owner_is_inside n acts σ os tid :
  run acts (init n) = Some (σ, os) →
  _lock (event σ) = Some tid →
  ∃ t, tasks σ !! tid = Some t
       ∧ holds_lock (at_pc t) = true
       ∧ at_pc t ≠ Returned ∧ ∀ e, at_pc t ≠ Raised e.
Proof.
  intros Hrun Hl.
  pose proof (Inv_reachable set_iter set_iter_perm _ _ _ _ Hrun) as HI.
  destruct (inv_owner _ HI tid Hl) as [t Ht]. exists t.
  pose proof (proj2 (inv_lock _ HI tid t Ht) Hl) as Hh.
  split; [done|]. split; [done|].
  split; [|intros e]; intros Hpc; rewrite Hpc in Hh; done.
Qed.

(** X3: the set is not changed under the loop.  While a call of [trigger] is
    in its loop, what the loop has left to visit are registered endpoints,
    each once, and no step of any task adds to or removes from
    [_channels]. *)
Theorem channels_fixed_during_loop n acts σ os tid t p it a σ' o :
  run acts (init n) = Some (σ, os) →
  tasks σ !! tid = Some t → at_pc t = TIterate p it →
  step a σ = Some (σ', o) →
  NoDup it ∧ (∀ c, c ∈ it → c ∈ _channels (event σ))
  ∧ _channels (event σ') = _channels (event σ).
Proof.
  intros Hrun Ht Hpc Hstep.
  pose proof (Inv_reachable set_iter set_iter_perm _ _ _ _ Hrun) as HI.
  destruct (inv_iter _ HI tid t p it Ht Hpc) as [Hnd Hin].
  split; [done|]. split; [done|].
  assert (holds_lock (at_pc t) = true) as Hh by by rewrite Hpc.
  assert (∀ y ty, tasks σ !! y = Some ty → holds_lock (at_pc ty) = true →
                  ∃ p' it', at_pc ty = TIterate p' it') as Hother.
  { intros y ty Hy Hly.
    rewrite <-(lock_unique σ tid y t ty HI Ht Hy Hh Hly) in Hy.
    simplify_eq. eauto. }
  step_cases Hstep; simpl; try done.
  all: match goal with
       | Hy : tasks _ !! ?y = Some ?ty, Hk : at_pc ?ty = _ |- _ =>
           destruct (Hother y ty Hy) as (? & ? & ?);
             [by rewrite Hk|congruence]
       end.
Qed.

(** X10: a subscriber that is inside its block is registered, its queue is
    open, has capacity 256 and is its own: no other subscription is about the
    same channel. *)
Theorem subscriber_in_block n acts σ os tid c :
  run acts (init n) = Some (σ, os) →
  pc_at σ tid = Some (SYielded c) →
  c ∈ _channels (event σ)
  ∧ (∃ ch, chans σ !! c = Some ch
           ∧ Channel.closed ch = false
           ∧ Channel.max_buffer_size ch = 256
           ∧ length (Channel.data ch) ≤ 256)
  ∧ ∀ tid' t', tasks σ !! tid' = Some t' →
      channel_of (at_pc t') = Some c → tid' = tid.
Proof.
  intros Hrun Hpc.
  pose proof (Inv_reachable set_iter set_iter_perm _ _ _ _ Hrun) as HI.
  unfold pc_at in Hpc. destruct (tasks σ !! tid) as [t|] eqn:Ht; [|done].
  injection Hpc as Hpc.
  split; [by apply (inv_registered _ HI tid t c Ht); rewrite Hpc|].
  split.
  - destruct (inv_own _ HI tid t c Ht) as [ch Hch]; [by rewrite Hpc|].
    exists ch. split; [done|].
    split; [by apply (inv_open _ HI tid t c ch Ht); [rewrite Hpc|]|].
    exact (inv_capacity _ HI c ch Hch).
  - intros tid' t' Ht' Hc'.
    apply (inv_distinct _ HI tid' tid t' t c Ht' Ht Hc'). by rewrite Hpc.
Qed.


(** X5: a subscription that ends without cancellation takes its endpoint
    out of the set.  If the subscriber's block ends, normally or raising [e],
    while the lock is free and the task is not cancelled, and the three steps
    of the cleanup follow with no cancellation and no step of another task
    in between, then [subscribe] closes the receive handle, removes the
    endpoint from [_channels], releases the lock, and returns or raises [e]
    again. *)
Theorem subscription_exit_unregisters n acts σ os tid t c e :
  run acts (init n) = Some (σ, os) →
  tasks σ !! tid = Some t → at_pc t = SYielded c →
  cancelled t = false → _lock (event σ) = None →
  ∃ σ',
    run [Exit tid e; Run tid; Run tid; Run tid] σ
    = Some (σ', [OClose tid c; OUnregister tid c]
                ++ match e with Some x => [ORaise tid x] | None => [] end)
    ∧ pc_at σ' tid
      = Some (match e with Some x => Raised x | None => Returned end)
    ∧ _lock (event σ') = None
    ∧ (c ∉ _channels (event σ'))
    ∧ (∀ c', c' ≠ c →
         (c' ∈ _channels (event σ') ↔ c' ∈ _channels (event σ))
         ∧ chans σ' !! c' = chans σ !! c')
    ∧ (Channel.closed <$> chans σ' !! c) = Some true.
Proof.
  intros Hrun Ht Hpc Hnc Hl.
  pose proof (Inv_reachable set_iter set_iter_perm _ _ _ _ Hrun) as HI.
  destruct (inv_own _ HI tid t c Ht) as [ch Hch]; [by rewrite Hpc|].
  assert (c ∈ _channels (event σ)) as Hreg
    by (apply (inv_registered _ HI tid t c Ht); by rewrite Hpc).
  destruct (subscribe_exit_normal set_iter σ tid t c e ch Ht Hpc Hnc Hch
              Hreg Hl) as (σ' & Hr & Hpc' & Hl' & Hset & Hchans).
  exists σ'. split; [done|]. split; [done|]. split; [done|].
  split.
  { rewrite Hset. intros [_ Hn]%elem_of_difference.
    apply Hn. by apply elem_of_singleton. }
  split.
  - intros c' Hc'. rewrite Hset, Hchans. split.
    + rewrite elem_of_difference, elem_of_singleton. intuition.
    + by rewrite lookup_insert_ne.
  - rewrite Hchans, lookup_insert_eq. done.
Qed.

(** Entering [subscribe] while the lock is free: a new queue is made and
    registered, and the caller's block starts. *)
Lemma subscribe_registers σ tid :
  tasks σ !! tid = None → _lock (event σ) = None →
  let c := fresh (dom (chans σ)) in
  ∃ σ',
    run [CallSubscribe tid; Run tid; Run tid; Run tid] σ
    = Some (σ', [ORegister tid c])
    ∧ tasks σ' = <[tid := {| cancelled := false; at_pc := SYielded c |}]> (tasks σ)
    ∧ _lock (event σ') = None
    ∧ _channels (event σ') = {[c]} ∪ _channels (event σ)
    ∧ chans σ' = <[c := Channel.open_memory_channel capacity]> (chans σ).
Proof.
  intros Hnew Hl c.
  set (t0 := {| cancelled := false; at_pc := SOpen |} : task T).
  set (σ1 := set_task tid t0 σ).
  set (σ2 := goto tid t0 (SAcquire c)
               (set_chan c (Channel.open_memory_channel capacity) σ1)).
  set (σ3 := goto tid t0 (SAdd c) (set_lock (Some tid) σ2)).
  set (σ4 := goto tid t0 (SYielded c)
               (set_lock None
                  (set_channels ({[c]} ∪ _channels (event σ3)) σ3))).
  assert (step (CallSubscribe tid) σ = Some (σ1, [])) as H1.
  { unfold EventModel.step. by rewrite Hnew. }
  assert (step (Run tid) σ1 = Some (σ2, [])) as H2.
  { unfold EventModel.step, σ1. simpl. rewrite lookup_insert_eq. done. }
  assert (step (Run tid) σ2 = Some (σ3, [])) as H3.
  { unfold EventModel.step, σ2, σ1. simpl. rewrite lookup_insert_eq.
    unfold subscribe. simpl. by rewrite Hl. }
  assert (step (Run tid) σ3 = Some (σ4, [ORegister tid c])) as H4.
  { unfold EventModel.step, σ3, σ2, σ1. simpl. rewrite lookup_insert_eq. done. }
  exists σ4. split.
  - cbn [EventModel.run]. rewrite H1, H2, H3, H4. done.
  - unfold σ4, σ3, σ2, σ1, t0. simpl. rewrite !insert_insert_eq. done.
Qed.

(** X11: subscribing and leaving is a round trip on the set.  From a
    reachable configuration with the lock free, a task that enters
    [subscribe], is not cancelled, and whose block ends (normally or raising
    [e]) leaves [_channels], the lock and every queue that existed before as
    they were; the queue it used is new and ends closed. *)
Theorem subscribe_then_leave_restores n acts σ os tid e :
  run acts (init n) = Some (σ, os) →
  tasks σ !! tid = None → _lock (event σ) = None →
  let c := fresh (dom (chans σ)) in
  ∃ σ',
    run [CallSubscribe tid; Run tid; Run tid; Run tid;
         Exit tid e; Run tid; Run tid; Run tid] σ
    = Some (σ', [ORegister tid c; OClose tid c; OUnregister tid c]
                ++ match e with Some x => [ORaise tid x] | None => [] end)
    ∧ _channels (event σ') = _channels (event σ)
    ∧ _lock (event σ') = None
    ∧ chans σ !! c = None
    ∧ (Channel.closed <$> chans σ' !! c) = Some true
    ∧ (∀ c', c' ≠ c → chans σ' !! c' = chans σ !! c').
Proof.
  intros Hrun Hnew Hl c.
  pose proof (Inv_reachable set_iter set_iter_perm _ _ _ _ Hrun) as HI.
  assert (chans σ !! c = None) as Hc.
  { apply not_elem_of_dom. apply is_fresh. }
  assert (c ∉ _channels (event σ)) as Hnotin.
  { intros Hin. destruct (inv_dom _ HI c Hin) as [ch Hch]. congruence. }
  destruct (subscribe_registers σ tid Hnew Hl)
    as (σ1 & Hrun1 & Htasks1 & Hl1 & Hset1 & Hchans1).
  fold c in Hrun1, Htasks1, Hset1, Hchans1.
  destruct (subscribe_exit_normal set_iter σ1 tid
              {| cancelled := false; at_pc := SYielded c |} c e
              (Channel.open_memory_channel capacity))
    as (σ2 & Hrun2 & Hpc2 & Hl2 & Hset2 & Hchans2).
  { by rewrite Htasks1, lookup_insert_eq. }
  { done. }
  { done. }
  { by rewrite Hchans1, lookup_insert_eq. }
  { rewrite Hset1. apply elem_of_union. left. by apply elem_of_singleton. }
  { done. }
  exists σ2. split.
  - apply (run_app set_iter [CallSubscribe tid; Run tid; Run tid; Run tid]
             [Exit tid e; Run tid; Run tid; Run tid]). eexists _, _, _. split; [exact Hrun1|].
    split; [exact Hrun2|done].
  - split.
    { rewrite Hset2, Hset1. apply set_eq. intros x.
      rewrite elem_of_difference, elem_of_union, elem_of_singleton.
      split; [intros [[?|?] ?]; [done|done]|].
      intros Hx. split; [by right|]. intros ->. done. }
    split; [done|]. split; [done|]. split.
    + rewrite Hchans2, lookup_insert_eq. done.
    + intros c' Hc'. rewrite Hchans2, Hchans1.
      by rewrite !lookup_insert_ne.
Qed.

(** An endpoint that is registered and closed while no subscription is
    about it: no step removes it, reopens it or lets a loop get past it.
    [owner] is the task, if any, that was in the loop of [trigger] already
    when the endpoint became so; only its loop can be past the endpoint. *)
Local Abbreviation stale c owner σ :=
  (c ∈ _channels (event σ)
   ∧ (∃ ch, chans σ !! c = Some ch ∧ Channel.closed ch = true)
   ∧ (∀ tid t, tasks σ !! tid = Some t → channel_of (at_pc t) ≠ Some c)
   ∧ (∀ tid t p it, tasks σ !! tid = Some t → at_pc t = TIterate p it →
        c ∈ it ∨ owner = Some tid)).

Lemma stale_step c (owner : option nat) a σ σ' o :
  stale c owner σ → step a σ = Some (σ', o) →
  stale c owner σ' ∧ ∀ tid, returned o tid = true → owner = Some tid.
Proof.
  intros (Hin & (ch & Hch & Hcl) & Hno & Hit) H.
  assert (c ≠ fresh (dom (chans σ))) as Hfresh.
  { intros ->. apply (is_fresh (dom (chans σ))). apply elem_of_dom. eauto. }
  step_cases H; simpl.
  all: try match goal with
         | Ht : tasks _ !! _ = Some ?t, Hk : at_pc ?t = _ |- _ =>
             pose proof (Hno _ _ Ht) as Hne;
             pose proof (λ p it, Hit _ _ p it Ht) as Hmem;
             rewrite Hk in Hne, Hmem; simpl in Hne
         end.
  all: try (assert (c ≠ n) as Hcn
              by (intros <-; simplify_eq; congruence)).
  all: split;
    [|intros tid' Hr; simpl in Hr; try done;
      rewrite orb_false_r in Hr; apply bool_decide_eq_true in Hr; subst;
      by destruct (Hmem _ _ eq_refl) as [?%elem_of_nil|?]].
  all: split; [first [done | apply elem_of_union; by right
                     | apply elem_of_difference; split; [done|];
                       rewrite elem_of_singleton; congruence]|].
  all: split;
    [exists ch; split; [|done];
     first [done | rewrite lookup_insert_ne; [done|congruence]]|].
  all: split.
  all: try (intros tid' t' Ht'; try actor_or_other Ht';
            first [by eapply Hno | simpl; congruence | done]).
  all: try (intros tid' t' p' it' Ht' Hk'; try actor_or_other Ht';
            first [by eapply Hit | done | idtac]).
  - left. rewrite set_iter_perm. by apply elem_of_elements.
  - destruct (Hmem _ _ eq_refl) as [Hc|?]; [left|by right].
    apply elem_of_cons in Hc as [?|?]; [congruence|done].
Qed.

Lemma stale_run c (owner : option nat) acts : ∀ σ σ' os,
  stale c owner σ → run acts σ = Some (σ', os) →
  stale c owner σ' ∧ ∀ tid, returned os tid = true → owner = Some tid.
Proof.
  induction acts as [|a acts IH]; intros σ σ' os HJ Hrun.
  - injection Hrun as <- <-. done.
  - apply run_cons in Hrun as (σ1 & o & os1 & Ha & Hrest & ->).
    destruct (stale_step c owner a σ σ1 o HJ Ha) as [HJ1 Ho].
    destruct (IH σ1 σ' os1 HJ1 Hrest) as [HJ' Hos].
    split; [done|]. intros tid. rewrite returned_app.
    intros [?|?]%orb_true_iff; auto.
Qed.

(** X6: an endpoint that stays in [_channels] after its subscription has
    ended makes [trigger] fail from then on.  Take a reachable
    configuration in which a registered channel is closed while no
    subscription is about it (a cancelled subscription leaves its endpoint
    so).  Whatever happens afterwards, the endpoint stays registered and
    closed, and no call of [trigger] returns, except the one, if any, that
    was in its loop, holding the lock, at that moment: every call that gets
    the lock later raises, or waits at a queue before the endpoint. *)
Theorem closed_endpoint_fails_every_trigger n acts0 σ0 os0 c ch acts σ os :
  run acts0 (init n) = Some (σ0, os0) →
  c ∈ _channels (event σ0) →
  chans σ0 !! c = Some ch → Channel.closed ch = true →
  (∀ tid t, tasks σ0 !! tid = Some t → channel_of (at_pc t) ≠ Some c) →
  run acts σ0 = Some (σ, os) →
  c ∈ _channels (event σ)
  ∧ (Channel.closed <$> chans σ !! c) = Some true
  ∧ (∀ tid, returned os tid = true → _lock (event σ0) = Some tid).
Proof.
  intros Hreach Hin Hch Hcl Hno Hrun.
  pose proof (Inv_reachable set_iter set_iter_perm _ _ _ _ Hreach) as HI.
  assert (stale c (_lock (event σ0)) σ0) as HJ.
  { split; [done|]. split; [eauto|]. split; [done|].
    intros tid t p it Ht Hk. right.
    apply (inv_lock _ HI tid t Ht). by rewrite Hk. }
  destruct (stale_run c _ acts σ0 σ os HJ Hrun)
    as [(Hin' & (ch' & Hch' & Hcl') & _ & _) Hret].
  split; [done|]. split; [by rewrite Hch'; simpl; rewrite Hcl'|].
  done.
Qed.

Lemma step_raises a σ σ' o tid e :
  Inv σ → step a σ = Some (σ', o) → ORaise tid e ∈ o →
  ∃ t, tasks σ !! tid = Some t
       ∧ ((e = Cancelled ∧ cancelled t = true)
          ∨ e = BrokenResourceError
          ∨ pending (at_pc t) = Some e).
Proof.
  intros HI H Hin.
  step_cases H; in_list Hin.
  all: try (eexists; split; [done|]).
  all: try (left; by split).
  all: try (right; left; done).
  all: try (right; right; match goal with
                          | Hk : at_pc _ = _ |- _ => by rewrite Hk
                          end).
  exfalso. apply n. apply (inv_registered _ HI tid0 t c H0). by rewrite H1.
Qed.

Lemma step_cancelled a σ σ' o tid t' :
  step a σ = Some (σ', o) →
  tasks σ' !! tid = Some t' → cancelled t' = true →
  a = Cancel tid ∨ ∃ t, tasks σ !! tid = Some t ∧ cancelled t = true.
Proof.
  intros H Ht' Hc.
  step_cases H; simpl in *.
  all: try actor_or_other Ht'.
  all: try (right; by eauto).
  all: try (by left).
Qed.

Lemma step_pending a σ σ' o tid t' e :
  step a σ = Some (σ', o) →
  tasks σ' !! tid = Some t' → pending (at_pc t') = Some e →
  a = Exit tid (Some e)
  ∨ ∃ t, tasks σ !! tid = Some t
         ∧ (pending (at_pc t) = Some e
            ∨ (e = Cancelled ∧ cancelled t = true)).
Proof.
  intros H Ht' Hp.
  step_cases H; simpl in *.
  all: try actor_or_other Ht'.
  all: try (by left).
  all: try (right; eexists; split; [done|]; left;
            match goal with Hk : at_pc _ = _ |- _ => by rewrite Hk end).
  all: try (right; eexists; split; [done|]; by left).
  all: try (right; eexists; split; [done|]; right; by split).
Qed.

Lemma run_blame n acts : ∀ σ os,
  run acts (init n) = Some (σ, os) →
  (∀ tid t, tasks σ !! tid = Some t → cancelled t = true →
     Cancel tid ∈ acts)
  ∧ (∀ tid t e, tasks σ !! tid = Some t → pending (at_pc t) = Some e →
       (e = Cancelled ∧ Cancel tid ∈ acts) ∨ Exit tid (Some e) ∈ acts)
  ∧ (∀ tid e, ORaise tid e ∈ os →
       (e = Cancelled ∧ Cancel tid ∈ acts)
       ∨ e = BrokenResourceError
       ∨ Exit tid (Some e) ∈ acts).
Proof.
  induction acts as [|a acts IH] using rev_ind; intros σ os Hrun.
  - injection Hrun as <- <-. simpl.
    split; [by intros ?? ?%lookup_empty_Some|].
    split; [by intros ??? ?%lookup_empty_Some|].
    by intros ?? ?%elem_of_nil.
  - apply run_snoc in Hrun as (σ1 & os1 & o & Hrun1 & Ha & ->).
    pose proof (Inv_reachable set_iter set_iter_perm _ _ _ _ Hrun1) as HI.
    destruct (IH σ1 os1 Hrun1) as (Hc & Hp & Hr).
    assert (∀ tid t, tasks σ !! tid = Some t → cancelled t = true →
              Cancel tid ∈ acts ++ [a]) as Hc'.
    { intros tid t Ht Hct. apply elem_of_app.
      destruct (step_cancelled a σ1 σ o tid t Ha Ht Hct) as [->|(t1 & Ht1 & ?)].
      - right. apply list_elem_of_singleton. done.
      - left. by apply (Hc tid t1). }
    split; [done|]. split.
    + intros tid t e Ht Hpe. rewrite !elem_of_app.
      destruct (step_pending a σ1 σ o tid t e Ha Ht Hpe)
        as [->|(t1 & Ht1 & [Hp1|[-> Hc1]])].
      * right. right. by apply list_elem_of_singleton.
      * destruct (Hp tid t1 e Ht1 Hp1) as [[-> ?]|?]; [left|right]; auto.
      * left. split; [done|]. left. by apply (Hc tid t1).
    + intros tid e [Hin|Hin]%elem_of_app; rewrite !elem_of_app.
      * destruct (Hr tid e Hin) as [[-> ?]|[->|?]]; auto.
      * destruct (step_raises a σ1 σ o tid e HI Ha Hin)
          as (t1 & Ht1 & [[-> Hc1]|[->|Hp1]]).
        -- left. split; [done|]. left. by apply (Hc tid t1).
        -- by right; left.
        -- destruct (Hp tid t1 e Ht1 Hp1) as [[-> ?]|?]; auto.
Qed.

(** X9: what the calls raise.  In every execution, an exception that
    [trigger] or [subscribe] raises to its caller is [Cancelled], and then
    the task's scope was cancelled, or [BrokenResourceError], or the
    exception with which the subscriber's own block ended.  In particular
    [remove] never raises [KeyError]. *)
Theorem calls_raise_only n acts σ os tid e :
  run acts (init n) = Some (σ, os) →
  ORaise tid e ∈ os →
  (e = Cancelled ∧ Cancel tid ∈ acts)
  ∨ e = BrokenResourceError
  ∨ Exit tid (Some e) ∈ acts.
Proof.
  intros Hrun Hin.
  by apply (proj2 (proj2 (run_blame n acts σ os Hrun))).
Qed.

End EventUse.

(** ** The further properties on closed schedules *)

Section FurtherSchedules.
Import EventModel Scenario.

(** X1 at one input: two subscribers in their blocks and a call of
    [trigger] that has got the lock. *)
Lemma critical_sections_exclude_witness :
  let σ := state_after (two_subscribers ++ [CallTrigger 3 7; Run 3]) in
  3 = 3 ∧ _lock (event σ) = Some 3.
Proof.
  intros σ.
  apply (critical_sections_exclude elements elements_perm "e"
           (two_subscribers ++ [CallTrigger 3 7; Run 3]) σ
           (seen_after (two_subscribers ++ [CallTrigger 3 7; Run 3])) 3 3
           {| cancelled := false; at_pc := TIterate 7 [1; 0] |}
           {| cancelled := false; at_pc := TIterate 7 [1; 0] |}).
  - vm_compute; reflexivity.
  - vm_compute; reflexivity.
  - vm_compute; reflexivity.
  - reflexivity.
  - reflexivity.
Defined.

(** X2 at one input: the same configuration; the lock names task 3. *)
Lemma lock_owner_is_inside_witness :
  let σ := state_after (two_subscribers ++ [CallTrigger 3 7; Run 3]) in
  ∃ t, tasks σ !! 3 = Some t
       ∧ holds_lock (at_pc t) = true
       ∧ at_pc t ≠ Returned ∧ ∀ e, at_pc t ≠ Raised e.
Proof.
  intros σ.
  apply (lock_owner_is_inside elements elements_perm "e"
           (two_subscribers ++ [CallTrigger 3 7; Run 3]) σ
           (seen_after (two_subscribers ++ [CallTrigger 3 7; Run 3])) 3).
  - vm_compute; reflexivity.
  - vm_compute; reflexivity.
Defined.

(** X3 at one input: while task 3 is in the loop, subscriber 1 leaves its
    block. *)
Lemma channels_fixed_during_loop_witness :
  let σ := state_after (two_subscribers ++ [CallTrigger 3 7; Run 3]) in
  let σ' := state_from σ [Exit 1 None] in
  NoDup [1; 0] ∧ (∀ c, c ∈ [1; 0] → c ∈ _channels (event σ))
  ∧ _channels (event σ') = _channels (event σ).
Proof.
  intros σ σ'.
  apply (channels_fixed_during_loop elements elements_perm "e"
           (two_subscribers ++ [CallTrigger 3 7; Run 3]) σ
           (seen_after (two_subscribers ++ [CallTrigger 3 7; Run 3])) 3
           {| cancelled := false; at_pc := TIterate 7 [1; 0] |} 7 [1; 0]
           (Exit 1 None) σ' []).
  - vm_compute; reflexivity.
  - vm_compute; reflexivity.
  - reflexivity.
  - vm_compute; reflexivity.
Defined.

(** X10 at one input: subscriber 1, in its block, and its channel 0. *)
Lemma subscriber_in_block_witness :
  let σ := state_after two_subscribers in
  0 ∈ _channels (event σ)
  ∧ (∃ ch, chans σ !! 0 = Some ch
           ∧ Channel.closed ch = false
           ∧ Channel.max_buffer_size ch = 256
           ∧ length (Channel.data ch) ≤ 256)
  ∧ ∀ tid' t', tasks σ !! tid' = Some t' →
      channel_of (at_pc t') = Some 0 → tid' = 1.
Proof.
  intros σ.
  apply (subscriber_in_block elements elements_perm "e" two_subscribers σ
           (seen_after two_subscribers) 1 0).
  - vm_compute; reflexivity.
  - vm_compute; reflexivity.
Defined.


(** X5 at one input: the block of subscriber 1 ends raising an exception
    of its own. *)
Lemma subscription_exit_unregisters_witness :
  let σ := state_after two_subscribers in
  ∃ σ',
    run elements [Exit 1 (Some (Failure 3)); Run 1; Run 1; Run 1] σ
    = Some (σ', [OClose 1 0; OUnregister 1 0; ORaise 1 (Failure 3)])
    ∧ pc_at σ' 1 = Some (Raised (Failure 3))
    ∧ _lock (event σ') = None
    ∧ (0 ∉ _channels (event σ')).
Proof.
  intros σ.
  destruct (subscription_exit_unregisters elements elements_perm "e"
              two_subscribers σ (seen_after two_subscribers) 1
              {| cancelled := false; at_pc := SYielded 0 |} 0
              (Some (Failure 3)))
    as (σ' & Hrun & Hpc & Hl & Hout & _).
  - vm_compute; reflexivity.
  - vm_compute; reflexivity.
  - reflexivity.
  - reflexivity.
  - vm_compute; reflexivity.
  - exists σ'. split; [exact Hrun|]. split; [exact Hpc|].
    split; [exact Hl|exact Hout].
Defined.

(** X11 at one input: a third subscription beside two others, opened and
    left normally. *)
Lemma subscribe_then_leave_restores_witness :
  let σ := state_after two_subscribers in
  ∃ σ',
    run elements [CallSubscribe 3; Run 3; Run 3; Run 3;
                  Exit 3 None; Run 3; Run 3; Run 3] σ
    = Some (σ', [ORegister 3 2; OClose 3 2; OUnregister 3 2])
    ∧ _channels (event σ') = _channels (event σ)
    ∧ _lock (event σ') = None.
Proof.
  intros σ.
  destruct (subscribe_then_leave_restores elements elements_perm "e"
              two_subscribers σ (seen_after two_subscribers) 3 None)
    as (σ' & Hrun & Hset & Hl & _).
  - vm_compute; reflexivity.
  - vm_compute; reflexivity.
  - vm_compute; reflexivity.
  - exists σ'. split; [exact Hrun|]. split; [exact Hset|exact Hl].
Defined.

(** X9 at one input: the [Cancelled] that a cancelled subscription raises. *)
Lemma calls_raise_only_witness :
  (Cancelled = Cancelled ∧ Cancel 1 ∈ cancelled_cycle 1)
  ∨ Cancelled = BrokenResourceError
  ∨ Exit 1 (Some Cancelled) ∈ cancelled_cycle 1.
Proof.
  apply (calls_raise_only elements elements_perm "e" (cancelled_cycle 1)
           (state_after (cancelled_cycle 1))
           (seen_after (cancelled_cycle 1)) 1 Cancelled).
  - vm_compute; reflexivity.
  - replace (seen_after (cancelled_cycle 1))
      with ([ORegister 1 0; OClose 1 0; ORaise 1 Cancelled]
              : list (obs nat))
      by (vm_compute; reflexivity).
    do 2 apply list_elem_of_further. apply list_elem_of_here.
Defined.

(** X6 at one input: after a cancelled subscription, a call of [trigger]
    gets the lock and raises. *)
Lemma closed_endpoint_fails_every_trigger_witness :
  let σ0 := state_after (cancelled_cycle 1) in
  let acts := [CallTrigger 5 9; Run 5; Run 5] in
  let σ := state_from σ0 acts in
  let os := seen_from σ0 acts in
  os = [OAcquire 5 9; ORaise 5 BrokenResourceError]
  ∧ 0 ∈ _channels (event σ)
  ∧ (Channel.closed <$> chans σ !! 0) = Some true
  ∧ (∀ tid, returned os tid = true → _lock (event σ0) = Some tid).
Proof.
  intros σ0 acts σ os.
  split; [vm_compute; reflexivity|].
  apply (closed_endpoint_fails_every_trigger elements elements_perm "e"
           (cancelled_cycle 1) σ0 (seen_after (cancelled_cycle 1)) 0
           {| Channel.data := []; Channel.max_buffer_size := 256;
              Channel.closed := true |} acts σ os).
  - vm_compute; reflexivity.
  - apply elem_of_elements.
    replace (elements (_channels (event σ0))) with [0]
      by (vm_compute; reflexivity).
    apply list_elem_of_singleton. reflexivity.
  - vm_compute; reflexivity.
  - reflexivity.
  - intros tid t Ht.
    replace (tasks σ0)
      with (<[1 := {| cancelled := true; at_pc := Raised Cancelled |}]>
              (∅ : gmap nat (task nat))) in Ht
      by (vm_compute; reflexivity).
    apply lookup_insert_Some in Ht as [[_ <-]|[_ Ht]]; [discriminate|].
    by apply lookup_empty_Some in Ht.
  - vm_compute; reflexivity.
Defined.

(** X8 at one input: a coroutine with two suspensions; after the first
    await, a resumption, a second await and another resumption, [__await__]
    still returns iterator 0. *)
Lemma reawaitable_await_returns_same_iterator_witness :
  let a := {| ReAwaitable.aw_kind := ReAwaitable.CoroutineObject;
              ReAwaitable.aw_suspensions := 2;
              ReAwaitable.aw_outcome := ReAwaitable.Return 42;
              ReAwaitable.aw_call := ReAwaitable.returns_iterator |} in
  let s0 := ReAwaitable.exec (ReAwaitable.__init__ a, ReAwaitable.empty_heap)
              ReAwaitable.OpAwait in
  let s := foldl ReAwaitable.exec (s0.1, s0.2)
             [ReAwaitable.OpResume; ReAwaitable.OpAwait;
              ReAwaitable.OpResume] in
  ReAwaitable.__await__ s.1 s.2 = (ReAwaitable.Iterator 0, s.1, s.2).
Proof.
  intros a s0.
  apply (reawaitable_await_returns_same_iterator
           (ReAwaitable.__init__ a) ReAwaitable.empty_heap 0 s0.1 s0.2).
  vm_compute; reflexivity.
Defined.

End FurtherSchedules.
